(** * jsmn-go: a shallow embedding of the JSON tokenizer and its drivers

    The repository carries two revisions of [jsmn.go].  The current one
    (bounds-checked allocator, strict end-of-input validation, size
    threshold in [ParseParallel]) is embedded at top level; the earlier
    revision (no overflow check, ':' moves the container cursor, lenient
    end of input) is embedded in [Module Legacy].

    Go's [int] is modelled by [Z]: every integer the tokenizer handles is
    either the sentinel -1, a byte offset bounded by [len(json) + 1] or a
    token index bounded by [len(p.tokens)], so no machine arithmetic wraps.
    A byte buffer is a [list byte], a token slice a [list Token] (a nil
    slice and an empty one are both the empty list). *)

From Stdlib Require Import ZArith Lia.
From Stdlib Require Import Strings.Byte Strings.String.
From stdpp Require Import base list.

Local Open Scope Z_scope.

(** ** Data model *)

Inductive TokenType := Object | Array | String | Primitive.

Record Token := mkToken {
  Type_ : TokenType;
  Start : Z;
  End_ : Z;
  Size : Z;
  ParentIdx : Z
}.

Record Parser := mkParser {
  pos : Z;
  toknext : Z;
  toksuper : Z;
  tokens : list Token
}.

(** Go error values: [errors.New] and [fmt.Errorf] with one wrapped cause. *)
Inductive error :=
| errorString (s : string)
| wrapError (prefix : string) (cause : error).

Definition Overflow : error := errorString "token overflow: too many tokens".
Definition UnclosedString : error := errorString "unclosed string".
Definition EmptyPrimitive : error := errorString "empty primitive".
Definition UnclosedContainer : error := errorString "unclosed object or array".
Definition SourceReadError (cause : error) : error :=
  wrapError "failed to read from reader: " cause.

(** The zero value of [Token], which [make] fills the slots with. *)
Definition zeroToken : Token := mkToken Object 0 0 0 0.

Definition set_End (e : Z) (t : Token) : Token :=
  mkToken (Type_ t) (Start t) e (Size t) (ParentIdx t).
Definition incr_Size (t : Token) : Token :=
  mkToken (Type_ t) (Start t) (End_ t) (Size t + 1) (ParentIdx t).

Definition set_pos (x : Z) (p : Parser) : Parser :=
  mkParser x (toknext p) (toksuper p) (tokens p).
Definition set_toknext (x : Z) (p : Parser) : Parser :=
  mkParser (pos p) x (toksuper p) (tokens p).
Definition set_toksuper (x : Z) (p : Parser) : Parser :=
  mkParser (pos p) (toknext p) x (tokens p).
Definition set_tokens (ts : list Token) (p : Parser) : Parser :=
  mkParser (pos p) (toknext p) (toksuper p) ts.

Definition len {A} (l : list A) : Z := Z.of_nat (length l).

(** [s[i]] on a Go slice: [None] stands for the index-out-of-range panic. *)
Definition index {A} (l : list A) (i : Z) : option A :=
  if (i <? 0) || (len l <=? i) then None else l !! Z.to_nat i.

(** ** Outcomes of a method call on [*Parser]

    A call returns a value and leaves the receiver in a new state, or the
    goroutine panics.  [OutOfFuel] is an artefact of the bounded loops below
    and is shown unreachable ([Parse_total]). *)

Inductive outcome (A : Type) :=
| Return (a : A) (p : Parser)
| Panic
| OutOfFuel.
Arguments Return {A} a p.
Arguments Panic {A}.
Arguments OutOfFuel {A}.

Definition M (A : Type) : Type := Parser -> outcome A.

Definition ret {A} (a : A) : M A := fun p => Return a p.
Definition bind {A B} (m : M A) (k : A -> M B) : M B :=
  fun p => match m p with
           | Return a p' => k a p'
           | Panic => Panic
           | OutOfFuel => OutOfFuel
           end.
Definition get : M Parser := fun p => Return p p.
Definition modify (f : Parser -> Parser) : M unit := fun p => Return tt (f p).
Definition panic {A} : M A := fun _ => Panic.

Notation "x <- m ;; k" := (bind m (fun x => k))
  (at level 100, m at next level, right associativity).
Notation "m ;;; k" := (bind m (fun _ => k))
  (at level 100, right associativity).

(** [p.tokens[i]] as an r-value and as an updated l-value. *)
Definition load (i : Z) : M Token :=
  fun p => match index (tokens p) i with
           | Some t => Return t p
           | None => Panic
           end.
Definition store (i : Z) (f : Token -> Token) : M unit :=
  fun p => match index (tokens p) i with
           | Some _ => Return tt (set_tokens (alter f (Z.to_nat i) (tokens p)) p)
           | None => Panic
           end.

(** [json[p.pos]] *)
Definition byte_at (json : list byte) : M byte :=
  fun p => match index json (pos p) with
           | Some c => Return c p
           | None => Panic
           end.

Notation "c == d" := (Byte.eqb c d%byte) (at level 70, no associativity).

Definition quote : byte := x22.
Definition backslash : byte := x5c.

Definition is_delimiter (c : byte) : bool :=
  (c == " ") || (c == x09) || (c == x0a) || (c == x0d)
  || (c == ",") || (c == "]") || (c == "}").

(** ** The scanner (current revision) *)

Definition NewParser (numTokens : Z) : option Parser :=
  if numTokens <? 0 then None
  else Some (mkParser 0 0 0 (replicate (Z.to_nat numTokens) zeroToken)).

Definition allocToken (tok : Token) : M (option error) :=
  p <- get ;;
  if toknext p >=? len (tokens p) then ret (Some Overflow)
  else
    store (toknext p) (fun _ => tok) ;;;
    (if toksuper p =? -1 then ret tt else store (toksuper p) incr_Size) ;;;
    modify (fun p => set_toknext (toknext p + 1) p) ;;;
    ret None.

Fixpoint parseString_loop (fuel : nat) (json : list byte) (tok : Token)
  : M (option error) :=
  fun p =>
    if pos p <? len json then
      match fuel with
      | O => OutOfFuel
      | S fuel' =>
          (c <- byte_at json ;;
           if c == quote then
             err <- allocToken (set_End (pos p) tok) ;;
             match err with
             | Some e => ret (Some e)
             | None => modify (fun p => set_pos (pos p + 1) p) ;;; ret None
             end
           else if (c == backslash) && (pos p + 1 <? len json) then
             modify (fun p => set_pos (pos p + 2) p) ;;;
             parseString_loop fuel' json tok
           else
             modify (fun p => set_pos (pos p + 1) p) ;;;
             parseString_loop fuel' json tok) p
      end
    else Return (Some UnclosedString) p.

Definition parseString (json : list byte) : M (option error) :=
  modify (fun p => set_pos (pos p + 1) p) ;;;
  p <- get ;;
  parseString_loop (length json) json
    (mkToken String (pos p) (-1) 0 (toksuper p)).

(** The scanning loop of [parsePrimitive]; it only moves [p.pos]. *)
Fixpoint parsePrimitive_loop (fuel : nat) (json : list byte) : M unit :=
  fun p =>
    if pos p <? len json then
      match fuel with
      | O => OutOfFuel
      | S fuel' =>
          (c <- byte_at json ;;
           if is_delimiter c then ret tt
           else
             modify (fun p => set_pos (pos p + 1) p) ;;;
             parsePrimitive_loop fuel' json) p
      end
    else Return tt p.

Definition parsePrimitive (json : list byte) : M (option error) :=
  p0 <- get ;;
  parsePrimitive_loop (length json) json ;;;
  p <- get ;;
  let tok := mkToken Primitive (pos p0) (pos p) 0 (toksuper p0) in
  if End_ tok =? Start tok then ret (Some EmptyPrimitive)
  else
    err <- allocToken tok ;;
    match err with
    | Some e => ret (Some e)
    | None => ret None
    end.

(** The [switch c] of the dispatch loop of [Parse]: [None] is [continue],
    [Some err] is [return 0, err]. *)
Definition Parse_switch (json : list byte) (c : byte) : M (option error) :=
  if (c == "{") || (c == "[") then
    p <- get ;;
    let tok := mkToken (if c == "{" then Object else Array)
                       (pos p) (-1) 0 (toksuper p) in
    err <- allocToken tok ;;
    match err with
    | Some e => ret (Some e)
    | None =>
        modify (fun p => set_toksuper (toknext p - 1) p) ;;;
        modify (fun p => set_pos (pos p + 1) p) ;;;
        ret None
    end
  else if (c == "}") || (c == "]") then
    p <- get ;;
    (if toksuper p =? -1 then ret tt
     else
       store (toksuper p) (set_End (pos p + 1)) ;;;
       t <- load (toksuper p) ;;
       modify (set_toksuper (ParentIdx t))) ;;;
    modify (fun p => set_pos (pos p + 1) p) ;;;
    ret None
  else if c == quote then
    parseString json
  else if (c == x09) || (c == x0d) || (c == x0a) || (c == " ") then
    modify (fun p => set_pos (pos p + 1) p) ;;;
    ret None
  else if c == ":" then
    modify (fun p => set_pos (pos p + 1) p) ;;;
    ret None
  else if c == "," then
    p <- get ;;
    (if toksuper p =? -1 then ret tt
     else
       t <- load (toksuper p) ;;
       match Type_ t with
       | Array | Object => ret tt
       | _ => modify (set_toksuper (ParentIdx t))
       end) ;;;
    modify (fun p => set_pos (pos p + 1) p) ;;;
    ret None
  else
    parsePrimitive json.

(** One iteration: [c := json[p.pos]] and the switch. *)
Definition Parse_body (json : list byte) : M (option error) :=
  c <- byte_at json ;;
  Parse_switch json c.

Fixpoint Parse_loop (fuel : nat) (json : list byte) : M (option error) :=
  fun p =>
    if pos p <? len json then
      match fuel with
      | O => OutOfFuel
      | S fuel' =>
          match Parse_body json p with
          | Return None p' => Parse_loop fuel' json p'
          | other => other
          end
      end
    else Return None p.

(** The post-loop pass over every slot of [p.tokens]. *)
Definition close_token (n : Z) (t : Token) : Token :=
  if (End_ t =? -1) && negb (Start t =? -1) then set_End n t else t.

Definition Parse (json : list byte) : M (Z * option error) :=
  modify (fun p => mkParser 0 0 (-1) (tokens p)) ;;;
  err <- Parse_loop (length json) json ;;
  match err with
  | Some e => ret (0, Some e)
  | None =>
      modify (fun p => set_tokens (close_token (len json) <$> tokens p) p) ;;;
      p <- get ;;
      if toksuper p =? -1 then ret (toknext p, None)
      else ret (0, Some UnclosedContainer)
  end.

Definition Tokens (p : Parser) : list Token :=
  take (Z.to_nat (toknext p)) (tokens p).

(** ** The drivers

    A package-level function returns the pair [([]Token, error)] or panics;
    [Diverged] mirrors [OutOfFuel]. *)
Inductive result :=
| Returned (toks : list Token) (err : option error)
| Panicked
| Diverged.

(** An [io.Reader], as the sequence of what its successive [Read] calls
    deliver: some bytes, the end of the stream, or a failure. *)
Inductive Reader :=
| EOF
| Data (chunk : list byte) (next : Reader)
| ReadFail (e : error).

(** [io.ReadAll]: the bytes read so far, and the error that stopped the
    reading if it was not the end of the stream. *)
Fixpoint ReadAll (r : Reader) : list byte * option error :=
  match r with
  | EOF => ([], None)
  | Data chunk next => let (bs, err) := ReadAll next in (chunk ++ bs, err)
  | ReadFail e => ([], Some e)
  end.

Definition ParseStream (r : Reader) (numTokens : Z) : result :=
  match ReadAll r with
  | (_, Some err) => Returned [] (Some (SourceReadError err))
  | (json, None) =>
      match NewParser numTokens with
      | None => Panicked
      | Some p =>
          match Parse json p with
          | Return (_, Some err) _ => Returned [] (Some err)
          | Return (_, None) p' => Returned (Tokens p') None
          | Panic => Panicked
          | OutOfFuel => Diverged
          end
      end
  end.

(** [json[start:end]] for in-range bounds. *)
Definition slice (json : list byte) (start end_ : Z) : list byte :=
  take (Z.to_nat (end_ - start)) (drop (Z.to_nat start) json).

(** The byte ranges handed to the workers. *)
Definition chunks (numWorkers chunkSize : Z) (json : list byte)
  : list (list byte) :=
  (fun i =>
     let start := i * chunkSize in
     let end_ := if i =? numWorkers - 1 then len json else start + chunkSize in
     slice json start end_) <$> seqZ 0 numWorkers.

(** The body of one worker goroutine: an error is what it sends on [errs],
    a token slice is what it stores in [results[i]]. *)
Definition worker (numTokens : Z) (chunk : list byte) : result :=
  match NewParser numTokens with
  | None => Panicked
  | Some p =>
      match Parse chunk p with
      | Return (_, Some err) _ => Returned [] (Some err)
      | Return (_, None) p' => Returned (Tokens p') None
      | Panic => Panicked
      | OutOfFuel => Diverged
      end
  end.

Definition sent_error (r : result) : option error :=
  match r with
  | Returned _ (Some err) => Some err
  | _ => None
  end.

Definition stored_tokens (r : result) : list Token :=
  match r with
  | Returned toks None => toks
  | _ => []
  end.

Definition crashed (r : result) : bool :=
  match r with
  | Returned _ _ => false
  | _ => true
  end.

(** After [wg.Wait()]: a panic in a worker takes the process down; otherwise
    the [select] receives the error that reached the channel first, which is
    any of those sent, or finds the channel empty and the slices are
    concatenated in chunk order.  The list holds every possible result. *)
Definition join (outs : list result) : list result :=
  if existsb crashed outs then [Panicked]
  else
    match omap sent_error outs with
    | [] => [Returned (concat (stored_tokens <$> outs)) None]
    | errs => (fun err => Returned [] (Some err)) <$> errs
    end.

(** [numCPU] is the value of [runtime.NumCPU()], at least 1. *)
Definition ParseParallel (numCPU : positive) (json : list byte)
  (numTokens : Z) : list result :=
  if len json <? 512 then
    match NewParser numTokens with
    | None => [Panicked]
    | Some p =>
        match Parse json p with
        | Return (_, Some err) _ => [Returned [] (Some err)]
        | Return (_, None) p' => [Returned (Tokens p') None]
        | Panic => [Panicked]
        | OutOfFuel => [Diverged]
        end
    end
  else
    let numWorkers := if Z.pos numCPU >? 4 then 4 else Z.pos numCPU in
    let chunkSize := Z.quot (len json) numWorkers in
    let '(chunkSize, numWorkers) :=
      if chunkSize =? 0 then (len json, 1) else (chunkSize, numWorkers) in
    join (worker numTokens <$> chunks numWorkers chunkSize json).

(** ** A direct call, in the words of the specification

    The caller builds a scanner of the given capacity, scans the buffer, and
    reads back the array truncated to the number of tokens reported; on an
    error there is no token set. *)
Definition direct_Parse (json : list byte) (numTokens : Z) : result :=
  match NewParser numTokens with
  | None => Panicked
  | Some p =>
      match Parse json p with
      | Return (n, None) p' => Returned (take (Z.to_nat n) (tokens p')) None
      | Return (_, Some err) _ => Returned [] (Some err)
      | Panic => Panicked
      | OutOfFuel => Diverged
      end
  end.

(** ** The earlier revision of the scanner

    [jsmn-go/jsmn.go] as first committed: the allocator does not check the
    capacity, ':' makes the token just emitted the current container (and ','
    pops back from it), an empty primitive is not an error, and containers
    left open at the end of the input are closed silently. *)
Module Legacy.

Definition allocToken (tok : Token) : M unit :=
  p <- get ;;
  store (toknext p) (fun _ => tok) ;;;
  (if toksuper p =? -1 then ret tt else store (toksuper p) incr_Size) ;;;
  modify (fun p => set_toknext (toknext p + 1) p).

Fixpoint parseString_loop (fuel : nat) (json : list byte) (tok : Token)
  : M (option error) :=
  fun p =>
    if pos p <? len json then
      match fuel with
      | O => OutOfFuel
      | S fuel' =>
          (c <- byte_at json ;;
           if c == quote then
             allocToken (set_End (pos p) tok) ;;;
             modify (fun p => set_pos (pos p + 1) p) ;;;
             ret None
           else if (c == backslash) && (pos p + 1 <? len json) then
             modify (fun p => set_pos (pos p + 2) p) ;;;
             parseString_loop fuel' json tok
           else
             modify (fun p => set_pos (pos p + 1) p) ;;;
             parseString_loop fuel' json tok) p
      end
    else Return (Some (errorString "unclosed string")) p.

Definition parseString (json : list byte) : M (option error) :=
  modify (fun p => set_pos (pos p + 1) p) ;;;
  p <- get ;;
  parseString_loop (length json) json
    (mkToken String (pos p) (-1) 0 (toksuper p)).

Definition parsePrimitive (json : list byte) : M (option error) :=
  p0 <- get ;;
  parsePrimitive_loop (length json) json ;;;
  p <- get ;;
  allocToken (mkToken Primitive (pos p0) (pos p) 0 (toksuper p0)) ;;;
  ret None.

Definition Parse_switch (json : list byte) (c : byte) : M (option error) :=
  if (c == "{") || (c == "[") then
    p <- get ;;
    allocToken (mkToken (if c == "{" then Object else Array)
                  (pos p) (-1) 0 (toksuper p)) ;;;
    modify (fun p => set_toksuper (toknext p - 1) p) ;;;
    modify (fun p => set_pos (pos p + 1) p) ;;;
    ret None
  else if (c == "}") || (c == "]") then
    p <- get ;;
    (if toksuper p =? -1 then ret tt
     else
       store (toksuper p) (set_End (pos p + 1)) ;;;
       t <- load (toksuper p) ;;
       modify (set_toksuper (ParentIdx t))) ;;;
    modify (fun p => set_pos (pos p + 1) p) ;;;
    ret None
  else if c == quote then
    parseString json
  else if (c == x09) || (c == x0d) || (c == x0a) || (c == " ") then
    modify (fun p => set_pos (pos p + 1) p) ;;;
    ret None
  else if c == ":" then
    modify (fun p => set_toksuper (toknext p - 1) p) ;;;
    modify (fun p => set_pos (pos p + 1) p) ;;;
    ret None
  else if c == "," then
    p <- get ;;
    (if toksuper p =? -1 then ret tt
     else
       t <- load (toksuper p) ;;
       match Type_ t with
       | Array | Object => ret tt
       | _ => modify (set_toksuper (ParentIdx t))
       end) ;;;
    modify (fun p => set_pos (pos p + 1) p) ;;;
    ret None
  else
    parsePrimitive json.

Definition Parse_body (json : list byte) : M (option error) :=
  c <- byte_at json ;;
  Parse_switch json c.

Fixpoint Parse_loop (fuel : nat) (json : list byte) : M (option error) :=
  fun p =>
    if pos p <? len json then
      match fuel with
      | O => OutOfFuel
      | S fuel' =>
          match Parse_body json p with
          | Return None p' => Parse_loop fuel' json p'
          | other => other
          end
      end
    else Return None p.

Definition Parse (json : list byte) : M (Z * option error) :=
  modify (fun p => mkParser 0 0 (-1) (tokens p)) ;;;
  err <- Parse_loop (length json) json ;;
  match err with
  | Some e => ret (0, Some e)
  | None =>
      modify (fun p => set_tokens (close_token (len json) <$> tokens p) p) ;;;
      p <- get ;;
      ret (toknext p, None)
  end.

Definition direct_Parse (json : list byte) (numTokens : Z) : result :=
  match NewParser numTokens with
  | None => Panicked
  | Some p =>
      match Parse json p with
      | Return (n, None) p' => Returned (take (Z.to_nat n) (tokens p')) None
      | Return (_, Some err) _ => Returned [] (Some err)
      | Panic => Panicked
      | OutOfFuel => Diverged
      end
  end.

Definition worker (numTokens : Z) (chunk : list byte) : result :=
  match NewParser numTokens with
  | None => Panicked
  | Some p =>
      match Parse chunk p with
      | Return (_, Some err) _ => Returned [] (Some err)
      | Return (_, None) p' => Returned (Tokens p') None
      | Panic => Panicked
      | OutOfFuel => Diverged
      end
  end.

(** No fallback for small buffers, and each worker gets its share
    [numTokens / numWorkers] of the capacity. *)
Definition ParseParallel (numCPU : positive) (json : list byte)
  (numTokens : Z) : list result :=
  let numWorkers := if Z.pos numCPU >? 4 then 4 else Z.pos numCPU in
  let chunkSize := Z.quot (len json) numWorkers in
  let '(chunkSize, numWorkers) :=
    if chunkSize =? 0 then (len json, 1) else (chunkSize, numWorkers) in
  join (worker (Z.quot numTokens numWorkers)
          <$> chunks numWorkers chunkSize json).

(** The read error is returned as it is. *)
Definition ParseStream (r : Reader) (numTokens : Z) : result :=
  match ReadAll r with
  | (_, Some err) => Returned [] (Some err)
  | (json, None) =>
      match NewParser numTokens with
      | None => Panicked
      | Some p =>
          match Parse json p with
          | Return (_, Some err) _ => Returned [] (Some err)
          | Return (_, None) p' => Returned (Tokens p') None
          | Panic => Panicked
          | OutOfFuel => Diverged
          end
      end
  end.

End Legacy.

(** ** Sample buffers *)

Definition str (s : string) : list byte := list_byte_of_string s.
Definition quoted (s : string) : list byte := quote :: str s ++ [quote].

(** [{"key": "value", "arr": [1, 2, 3]}] *)
Definition example1 : list byte :=
  str "{" ++ quoted "key" ++ str ": " ++ quoted "value" ++ str ", "
  ++ quoted "arr" ++ str ": [1, 2, 3]}".

(** [{"a":1] *)
Definition example3 : list byte :=
  str "{" ++ quoted "a" ++ str ":1".

(** A string with an escaped quote inside: quote, a, backslash, quote, b,
    quote. *)
Definition example_escaped : list byte :=
  [quote] ++ str "a" ++ [backslash; quote] ++ str "b" ++ [quote].

(** * Specification-level definitions and proof devices *)

(** ** Scanning functions over the unread suffix

    [closing_quote s] is the offset in [s] of the first quote that is not the
    second byte of a backslash pair; [primitive_run s] is the length of the
    longest delimiter-free prefix of [s]. *)

Fixpoint closing_quote (s : list byte) : option nat :=
  match s with
  | [] => None
  | c :: s' =>
      if c == quote then Some O
      else if c == backslash then
        match s' with
        | [] => None
        | _ :: s'' => (fun k => S (S k)) <$> closing_quote s''
        end
      else S <$> closing_quote s'
  end.

Fixpoint primitive_run (s : list byte) : nat :=
  match s with
  | [] => O
  | c :: s' => if is_delimiter c then O else S (primitive_run s')
  end.

Definition rest (json : list byte) (q : Z) : list byte :=
  drop (Z.to_nat q) json.

(** ** Closed forms of the sub-scanners and of the allocator *)

(** What [parseString] does once the closing quote is known to sit at [q]. *)
Definition finish_string (q : Z) (tok : Token) : M (option error) :=
  err <- allocToken (set_End q tok) ;;
  match err with
  | Some e => ret (Some e)
  | None => modify (fun p => set_pos (pos p + 1) p) ;;; ret None
  end.

(** The used part of the array after one allocation under cursor [s]. *)
Definition push (s : Z) (tok : Token) (l : list Token) : list Token :=
  (if s =? -1 then l else alter incr_Size (Z.to_nat s) l) ++ [tok].

(** ** A capacity-free view of the scanner

    The dispatch loop reads the receiver only through [pos], [toksuper] and
    the used part of the array.  [view_step] is one iteration on that view,
    with the sub-scanners replaced by their closed forms; it is the device
    through which runs at different capacities are compared and through which
    the token invariants are established. *)

Record view := mkView { vpos : Z; vsuper : Z; vtoks : list Token }.

Definition view_of (p : Parser) : view :=
  mkView (pos p) (toksuper p) (Tokens p).

Inductive vstep :=
| VErr (e : error)
| VKeep (v : view)
| VAlloc (v : view).

Definition parent_at (s : Z) (l : list Token) : Z :=
  match l !! Z.to_nat s with
  | Some t => ParentIdx t
  | None => -1
  end.

Definition is_container (t : Token) : bool :=
  match Type_ t with
  | Object | Array => true
  | _ => false
  end.

Definition comma_super (s : Z) (l : list Token) : Z :=
  if s =? -1 then s
  else match l !! Z.to_nat s with
       | Some t => if is_container t then s else ParentIdx t
       | None => s
       end.

Definition view_step (json : list byte) (v : view) : vstep :=
  match rest json (vpos v) with
  | [] => VKeep v
  | c :: s =>
      if (c == "{") || (c == "[") then
        VAlloc (mkView (vpos v + 1) (len (vtoks v))
                  (push (vsuper v)
                     (mkToken (if c == "{" then Object else Array)
                        (vpos v) (-1) 0 (vsuper v))
                     (vtoks v)))
      else if (c == "}") || (c == "]") then
        VKeep (if vsuper v =? -1 then mkView (vpos v + 1) (vsuper v) (vtoks v)
               else mkView (vpos v + 1) (parent_at (vsuper v) (vtoks v))
                      (alter (set_End (vpos v + 1)) (Z.to_nat (vsuper v))
                         (vtoks v)))
      else if c == quote then
        match closing_quote s with
        | Some k =>
            VAlloc (mkView (vpos v + 1 + Z.of_nat k + 1) (vsuper v)
                      (push (vsuper v)
                         (mkToken String (vpos v + 1)
                            (vpos v + 1 + Z.of_nat k) 0 (vsuper v))
                         (vtoks v)))
        | None => VErr UnclosedString
        end
      else if (c == x09) || (c == x0d) || (c == x0a) || (c == " ") then
        VKeep (mkView (vpos v + 1) (vsuper v) (vtoks v))
      else if c == ":" then
        VKeep (mkView (vpos v + 1) (vsuper v) (vtoks v))
      else if c == "," then
        VKeep (mkView (vpos v + 1) (comma_super (vsuper v) (vtoks v))
                 (vtoks v))
      else
        let k := Z.of_nat (primitive_run (c :: s)) in
        if vpos v + k =? vpos v then VErr EmptyPrimitive
        else
          VAlloc (mkView (vpos v + k) (vsuper v)
                    (push (vsuper v)
                       (mkToken Primitive (vpos v) (vpos v + k) 0 (vsuper v))
                       (vtoks v)))
  end.

(** The concrete receiver is in step with its view. *)
Definition bounded (p : Parser) : Prop :=
  0 <= toknext p <= len (tokens p) /\
  (toksuper p = -1 \/ 0 <= toksuper p < toknext p).

(** How one concrete iteration relates to one iteration on the view. *)
Definition body_matches (json : list byte) (p : Parser) (r : vstep) : Prop :=
  match r with
  | VErr e => exists p', Parse_body json p = Return (Some e) p'
  | VKeep v' =>
      exists p', Parse_body json p = Return None p' /\ view_of p' = v' /\
                 toknext p' = toknext p /\ len (tokens p') = len (tokens p)
  | VAlloc v' =>
      if toknext p <? len (tokens p) then
        exists p', Parse_body json p = Return None p' /\ view_of p' = v' /\
                   toknext p' = toknext p + 1 /\
                   len (tokens p') = len (tokens p)
      else exists p', Parse_body json p = Return (Some Overflow) p'
  end.

(** ** Token-list invariants

    [parent_ok l i j]: [j] is the sentinel, or the index below [i] of a
    container token of [l].  [links_ok]: every token's [ParentIdx] is such an
    index below its own.  [sizes_ok]: every token's [Size] counts the tokens
    naming it as parent. *)

Definition children (j : Z) (l : list Token) : Z :=
  len (filter (fun t => ParentIdx t = j) l).

Definition parent_ok (l : list Token) (i j : Z) : Prop :=
  j = -1 \/
  (0 <= j < i /\ exists t, l !! Z.to_nat j = Some t /\ is_container t = true).

Definition links_ok (l : list Token) : Prop :=
  forall i t, l !! i = Some t -> parent_ok l (Z.of_nat i) (ParentIdx t).

Definition sizes_ok (l : list Token) : Prop :=
  forall i t, l !! i = Some t -> Size t = children (Z.of_nat i) l.

Record vinv (v : view) : Prop := mkVinv {
  inv_super : parent_ok (vtoks v) (len (vtoks v)) (vsuper v);
  inv_links : links_ok (vtoks v);
  inv_sizes : sizes_ok (vtoks v)
}.

(** Two tokens that differ at most in their span. *)
Definition same_shape (t t' : Token) : Prop :=
  Type_ t = Type_ t' /\ ParentIdx t = ParentIdx t' /\ Size t = Size t'.
(** Two tokens that differ at most in span and child count. *)
Definition linked (t t' : Token) : Prop :=
  Type_ t = Type_ t' /\ ParentIdx t = ParentIdx t'.

(** ** What one iteration on the view guarantees *)

Definition step_ok (json : list byte) (v : view) (r : vstep) : Prop :=
  match r with
  | VErr _ => True
  | VKeep v' =>
      vinv v' /\ vpos v < vpos v' <= len json /\ len (vtoks v') = len (vtoks v)
  | VAlloc v' =>
      vinv v' /\ vpos v < vpos v' <= len json /\
      len (vtoks v') = len (vtoks v) + 1
  end.

(** The dispatch loop on the view. *)
Inductive vrun :=
| VFailed (e : error)
| VDone (v : view)
| VNoFuel.

Fixpoint view_loop (fuel : nat) (json : list byte) (v : view) : vrun :=
  if vpos v <? len json then
    match fuel with
    | O => VNoFuel
    | S fuel' =>
        match view_step json v with
        | VErr e => VFailed e
        | VKeep v' | VAlloc v' => view_loop fuel' json v'
        end
    end
  else VDone v.

(** ** The concrete loop against the loop on the view *)

Definition loop_matches (fuel : nat) (json : list byte) (p : Parser)
  (r : vrun) : Prop :=
  match r with
  | VDone v' =>
      if len (vtoks v') <=? len (tokens p) then
        exists p', Parse_loop fuel json p = Return None p' /\
                   view_of p' = v' /\ bounded p' /\
                   len (tokens p') = len (tokens p)
      else exists p', Parse_loop fuel json p = Return (Some Overflow) p'
  | VFailed e =>
      exists p' e', Parse_loop fuel json p = Return (Some e') p' /\
                    (e' = e \/ e' = Overflow)
  | VNoFuel => True
  end.

(** ** [Parse] against a full run on the view *)

Definition view_init : view := mkView 0 (-1) [].

Definition view_run (json : list byte) : vrun :=
  view_loop (length json) json view_init.

Definition Parse_result (v : view) : Z * option error :=
  if vsuper v =? -1 then (len (vtoks v), None)
  else (0, Some UnclosedContainer).

Definition Parse_matches (json : list byte) (p0 : Parser) (r : vrun) : Prop :=
  match r with
  | VDone v =>
      if len (vtoks v) <=? len (tokens p0) then
        exists p, Parse json p0 = Return (Parse_result v) p /\
                  Tokens p = close_token (len json) <$> vtoks v /\
                  toknext p = len (vtoks v) /\
                  len (tokens p) = len (tokens p0)
      else exists p, Parse json p0 = Return (0, Some Overflow) p
  | VFailed e =>
      exists p e', Parse json p0 = Return (0, Some e') p /\
                   (e' = e \/ e' = Overflow)
  | VNoFuel => False
  end.

(** ** Example 1 *)

Definition example1_tokens : list Token :=
  [ mkToken Object 0 34 4 (-1);
    mkToken String 2 5 0 0;
    mkToken String 9 14 0 0;
    mkToken String 18 21 0 0;
    mkToken Array 24 33 3 0;
    mkToken Primitive 25 26 0 4;
    mkToken Primitive 28 29 0 4;
    mkToken Primitive 31 32 0 4 ].

(** The bytes a token spans. *)
Definition text (json : list byte) (t : Token) : list byte :=
  slice json (Start t) (End_ t).

(** ** Capacity boundary *)

(** A buffer needs [n] tokens when a scan with enough room reports [n]. *)
Definition needs (json : list byte) (n : Z) : Prop :=
  exists numTokens p p',
    NewParser numTokens = Some p /\ Parse json p = Return (n, None) p'.

(** A scan at capacity [numTokens] reports [n] tokens; the array still has
    [numTokens] slots and exactly [n] of them are in use. *)
Definition succeeds_with (json : list byte) (numTokens n : Z) : Prop :=
  exists p p',
    NewParser numTokens = Some p /\ Parse json p = Return (n, None) p' /\
    len (tokens p') = numTokens /\ len (Tokens p') = n.

Definition overflows (json : list byte) (numTokens : Z) : Prop :=
  exists p p',
    NewParser numTokens = Some p /\
    Parse json p = Return (0, Some Overflow) p'.

(** ** Unclosed containers *)

(** Where the dispatch loop leaves [{"a":1]: three tokens, the object
    still open and still the current container. *)
Definition example3_view : view :=
  mkView 6 0 [mkToken Object 0 (-1) 2 (-1);
              mkToken String 2 3 0 0;
              mkToken Primitive 5 6 0 0].

(** ** Primitive spans *)

Definition spans_ok (l : list Token) : Prop :=
  forall i t, l !! i = Some t -> Type_ t = Primitive -> 0 <= Start t < End_ t.

(** ** Sample states of example 1 *)

Definition example1_parser : Parser := mkParser 0 0 0 (replicate 8 zeroToken).
Definition example1_final : Parser := mkParser 34 8 (-1) example1_tokens.

(** ** The colon *)

Definition is_blank (c : byte) : bool :=
  (c == x09) || (c == x0d) || (c == x0a) || (c == " ").

(** The iterations that skip the blanks between two tokens. *)
Inductive skip_blanks (json : list byte) : Parser -> Parser -> Prop :=
| skip_done p : skip_blanks json p p
| skip_more p c p1 p' :
    index json (pos p) = Some c ->
    is_blank c = true ->
    Parse_body json p = Return None p1 ->
    skip_blanks json p1 p' ->
    skip_blanks json p p'.

(** The receiver after [n] iterations of the dispatch loop. *)
Fixpoint iterations (n : nat) (json : list byte) (p : Parser) : Parser :=
  match n with
  | O => p
  | S n' =>
      match Parse_body json p with
      | Return _ p' => iterations n' json p'
      | _ => p
      end
  end.

Definition example1_at (n : nat) : Parser :=
  iterations n example1 (mkParser 0 0 (-1) (replicate 8 zeroToken)).

(** ** Spans, order and nesting of the tokens

    None of these facts depends on [Size]: they are stated on the tokens
    with [Size] erased, where an allocation is an append and a closing
    bracket an update of one [End]. *)

Definition unsized (t : Token) : Token :=
  mkToken (Type_ t) (Start t) (End_ t) 0 (ParentIdx t).

Definition is_closer (c : byte) : bool := (c == "}") || (c == "]").

(** A token seen when the scan stands at [q]: it starts before [q]; it is a
    container still open, or it ends at or before [q], after its start (at
    its start for an empty string). *)
Definition span_ok (q : Z) (t : Token) : Prop :=
  0 <= Start t < q /\
  ((End_ t = -1 /\ is_container t = true) \/
   (Start t <= End_ t <= q /\ (Type_ t <> String -> Start t < End_ t))).

(** What the bytes of the buffer are at and around the span of a token. *)
Definition tok_text (json : list byte) (t : Token) : Prop :=
  match Type_ t with
  | Object =>
      index json (Start t) = Some "{"%byte /\
      (End_ t = -1 \/
       exists c, index json (End_ t - 1) = Some c /\ is_closer c = true)
  | Array =>
      index json (Start t) = Some "["%byte /\
      (End_ t = -1 \/
       exists c, index json (End_ t - 1) = Some c /\ is_closer c = true)
  | String =>
      index json (Start t - 1) = Some quote /\
      index json (End_ t) = Some quote /\
      closing_quote (slice json (Start t) (End_ t)) = None
  | Primitive =>
      Forall (fun c => is_delimiter c = false)
        (slice json (Start t) (End_ t)) /\
      (End_ t = len json \/
       exists c, index json (End_ t) = Some c /\ is_delimiter c = true)
  end.

(** The invariant of the dispatch loop on position [q], cursor [s] and
    size-erased tokens [L]. *)
Record winv (json : list byte) (q s : Z) (L : list Token) : Prop := mkWinv {
  w_count : len L <= q;
  w_span : forall i t, L !! i = Some t -> span_ok q t;
  w_text : forall i t, L !! i = Some t -> tok_text json t;
  w_links : forall i t, L !! i = Some t ->
      ParentIdx t = -1 \/ 0 <= ParentIdx t < Z.of_nat i;
  w_order : forall i j ti tj,
      L !! i = Some ti -> L !! j = Some tj -> (i < j)%nat ->
      Start ti < Start tj;
  w_top : s = -1 \/
      (0 <= s /\ exists t, L !! Z.to_nat s = Some t /\ End_ t = -1);
  w_open : forall i t, L !! i = Some t -> End_ t = -1 -> Z.of_nat i <= s;
  w_below : forall k tk i ti,
      L !! k = Some tk -> L !! i = Some ti -> End_ ti = -1 -> (i < k)%nat ->
      Z.of_nat i <= ParentIdx tk;
  w_chain : forall i t, L !! i = Some t -> End_ t = -1 ->
      ParentIdx t = -1 \/
      exists tp, L !! Z.to_nat (ParentIdx t) = Some tp /\ End_ tp = -1;
  w_nest : forall i t tp,
      L !! i = Some t -> ParentIdx t <> -1 ->
      L !! Z.to_nat (ParentIdx t) = Some tp ->
      End_ tp = -1 \/ (End_ t <> -1 /\ End_ t < End_ tp)
}.

Definition wide (json : list byte) (v : view) : Prop :=
  winv json (vpos v) (vsuper v) (unsized <$> vtoks v).

(** The forms one iteration on the view can take. *)
Inductive step_shape (json : list byte) (v : view) : vstep -> Prop :=
| shape_open c ty :
    index json (vpos v) = Some c ->
    (c = "{"%byte /\ ty = Object) \/ (c = "["%byte /\ ty = Array) ->
    step_shape json v
      (VAlloc (mkView (vpos v + 1) (len (vtoks v))
                 (push (vsuper v) (mkToken ty (vpos v) (-1) 0 (vsuper v))
                    (vtoks v))))
| shape_close c :
    index json (vpos v) = Some c -> is_closer c = true ->
    vsuper v <> -1 ->
    step_shape json v
      (VKeep (mkView (vpos v + 1) (parent_at (vsuper v) (vtoks v))
                (alter (set_End (vpos v + 1)) (Z.to_nat (vsuper v))
                   (vtoks v))))
| shape_skip :
    step_shape json v (VKeep (mkView (vpos v + 1) (vsuper v) (vtoks v)))
| shape_string k :
    index json (vpos v) = Some quote ->
    closing_quote (rest json (vpos v + 1)) = Some k ->
    step_shape json v
      (VAlloc (mkView (vpos v + 1 + Z.of_nat k + 1) (vsuper v)
                 (push (vsuper v)
                    (mkToken String (vpos v + 1) (vpos v + 1 + Z.of_nat k) 0
                       (vsuper v))
                    (vtoks v))))
| shape_primitive k :
    k = primitive_run (rest json (vpos v)) -> (0 < k)%nat ->
    step_shape json v
      (VAlloc (mkView (vpos v + Z.of_nat k) (vsuper v)
                 (push (vsuper v)
                    (mkToken Primitive (vpos v) (vpos v + Z.of_nat k) 0
                       (vsuper v))
                    (vtoks v))))
| shape_error e : step_shape json v (VErr e).

(** ** Results of the drivers *)


(** * Proofs *)

(** ** Basic facts on buffers and slots *)

Lemma index_Some {A} (l : list A) (i : Z) (x : A) :
  index l i = Some x <-> 0 <= i /\ l !! Z.to_nat i = Some x.
Proof.
  unfold index, len. split.
  - destruct (i <? 0) eqn:Hi; simpl; [discriminate|].
    destruct (Z.of_nat (length l) <=? i); simpl; [discriminate|].
    intros H. split; [lia | exact H].
  - intros [Hi H]. pose proof (lookup_lt_Some _ _ _ H) as Hlt.
    destruct (i <? 0) eqn:Hi'; [lia|]. simpl.
    destruct (Z.of_nat (length l) <=? i) eqn:Hle; [lia|]. exact H.
Qed.

Lemma index_in_range {A} (l : list A) (i : Z) :
  0 <= i < len l -> exists x, index l i = Some x /\ l !! Z.to_nat i = Some x.
Proof.
  unfold len. intros Hi.
  destruct (lookup_lt_is_Some_2 l (Z.to_nat i)) as [x Hx]; [lia|].
  exists x. split; [apply index_Some; split; [lia | exact Hx] | exact Hx].
Qed.

Lemma rest_cons json q :
  0 <= q < len json ->
  exists c, index json q = Some c /\ rest json q = c :: rest json (q + 1).
Proof.
  intros Hq. destruct (index_in_range json q Hq) as (c & Hc & Hl).
  exists c. split; [exact Hc|]. unfold rest.
  replace (Z.to_nat (q + 1)) with (S (Z.to_nat q)) by lia.
  by apply drop_S.
Qed.

Lemma rest_nil json q : len json <= q -> rest json q = [].
Proof. unfold rest, len. intros H. apply drop_ge. lia. Qed.

Lemma set_pos_id p : set_pos (pos p) p = p.
Proof. by destruct p. Qed.

(** ** The sub-scanners in closed form *)

Lemma parseString_loop_spec fuel json tok p :
  0 <= pos p <= len json ->
  len json - pos p <= Z.of_nat fuel ->
  parseString_loop fuel json tok p =
    match closing_quote (rest json (pos p)) with
    | Some k => finish_string (pos p + Z.of_nat k) tok
                  (set_pos (pos p + Z.of_nat k) p)
    | None => Return (Some UnclosedString) (set_pos (len json) p)
    end.
Proof.
  revert p. induction fuel as [|fuel IH]; intros p Hp Hfuel.
  - assert (pos p = len json) as Hq by lia.
    rewrite rest_nil by lia. simpl.
    destruct (pos p <? len json) eqn:Hlt; [lia|].
    by rewrite <- Hq, set_pos_id.
  - simpl. destruct (pos p <? len json) eqn:Hlt.
    + apply Z.ltb_lt in Hlt.
      destruct (rest_cons json (pos p)) as (c & Hc & Hr); [lia|].
      rewrite Hr. simpl. unfold bind at 1, byte_at. rewrite Hc.
      destruct (c == quote) eqn:Hquote.
      { rewrite Z.add_0_r, set_pos_id. reflexivity. }
      destruct (c == backslash) eqn:Hbs; simpl.
      * destruct (pos p + 1 <? len json) eqn:Hlt2.
        -- apply Z.ltb_lt in Hlt2.
           destruct (rest_cons json (pos p + 1)) as (c' & _ & Hr'); [lia|].
           rewrite Hr'. unfold bind, modify.
           rewrite IH by (simpl; lia). simpl.
           replace (pos p + 1 + 1) with (pos p + 2) by lia.
           destruct (closing_quote (rest json (pos p + 2))) as [k|]; simpl;
             [|reflexivity].
           replace (pos p + 2 + Z.of_nat k) with (pos p + Z.of_nat (S (S k)))
             by lia.
           reflexivity.
        -- apply Z.ltb_ge in Hlt2. rewrite rest_nil by lia.
           unfold bind, modify. rewrite IH by (simpl; lia). simpl.
           rewrite rest_nil by lia. reflexivity.
      * unfold bind, modify. rewrite IH by (simpl; lia). simpl.
        destruct (closing_quote (rest json (pos p + 1))) as [k|]; simpl;
          [|reflexivity].
        replace (pos p + 1 + Z.of_nat k) with (pos p + Z.of_nat (S k)) by lia.
        reflexivity.
    + apply Z.ltb_ge in Hlt. rewrite rest_nil by lia.
      assert (pos p = len json) as Hq by lia.
      by rewrite <- Hq, set_pos_id.
Qed.

Lemma parsePrimitive_loop_spec fuel json p :
  0 <= pos p <= len json ->
  len json - pos p <= Z.of_nat fuel ->
  parsePrimitive_loop fuel json p =
    Return tt (set_pos (pos p + Z.of_nat (primitive_run (rest json (pos p)))) p).
Proof.
  revert p. induction fuel as [|fuel IH]; intros p Hp Hfuel.
  - rewrite rest_nil by lia. simpl.
    destruct (pos p <? len json) eqn:Hlt; [lia|].
    by rewrite Z.add_0_r, set_pos_id.
  - simpl. destruct (pos p <? len json) eqn:Hlt.
    + apply Z.ltb_lt in Hlt.
      destruct (rest_cons json (pos p)) as (c & Hc & Hr); [lia|].
      rewrite Hr. simpl. unfold bind at 1, byte_at. rewrite Hc.
      destruct (is_delimiter c).
      * by rewrite Z.add_0_r, set_pos_id.
      * unfold bind, modify. rewrite IH by (simpl; lia). simpl.
        replace (pos p + 1 + Z.of_nat (primitive_run (rest json (pos p + 1))))
          with (pos p + Z.of_nat (S (primitive_run (rest json (pos p + 1)))))
          by lia.
        reflexivity.
    + apply Z.ltb_ge in Hlt. rewrite rest_nil by lia. simpl.
      by rewrite Z.add_0_r, set_pos_id.
Qed.

(** ** The allocator in closed form *)

Lemma allocToken_full tok p :
  len (tokens p) <= toknext p ->
  allocToken tok p = Return (Some Overflow) p.
Proof.
  intros H. unfold allocToken, bind, get.
  destruct (toknext p >=? len (tokens p)) eqn:E; [reflexivity | lia].
Qed.

Lemma allocToken_ok tok p :
  0 <= toknext p < len (tokens p) ->
  toksuper p = -1 \/ 0 <= toksuper p < toknext p ->
  exists p',
    allocToken tok p = Return None p' /\
    pos p' = pos p /\ toksuper p' = toksuper p /\
    toknext p' = toknext p + 1 /\
    len (tokens p') = len (tokens p) /\
    Tokens p' = push (toksuper p) tok (Tokens p).
Proof.
  intros Hn Hs. destruct p as [q n s l]. simpl in *.
  unfold allocToken, bind, get. simpl.
  destruct (n >=? len l) eqn:E; [lia|]. clear E.
  destruct (index_in_range l n Hn) as (t0 & Ht0 & Hl0).
  unfold store at 1. simpl. rewrite Ht0. simpl.
  assert (take (Z.to_nat (n + 1)) (alter (fun _ => tok) (Z.to_nat n) l)
          = take (Z.to_nat n) l ++ [tok]) as Htake.
  { replace (Z.to_nat (n + 1)) with (S (Z.to_nat n)) by lia.
    erewrite take_S_r.
    - by rewrite take_alter_ge by lia.
    - by rewrite list_lookup_alter_eq, Hl0. }
  unfold push, Tokens, len in *. simpl.
  destruct (s =? -1) eqn:Es.
  - eexists. split; [reflexivity|]. simpl.
    rewrite length_alter. repeat split; try done.
  - assert (0 <= s < n) as Hs' by lia.
    unfold store. simpl.
    destruct (index_in_range (alter (fun _ => tok) (Z.to_nat n) l) s)
      as (t1 & Ht1 & _).
    { unfold len. rewrite length_alter. lia. }
    rewrite Ht1. simpl.
    eexists. split; [reflexivity|]. simpl.
    rewrite !length_alter. repeat split; try done.
    rewrite take_alter_lt by lia. rewrite Htake.
    apply alter_app_l. rewrite length_take. lia.
Qed.

(** ** A capacity-free view of the scanner *)

Lemma len_Tokens p : 0 <= toknext p <= len (tokens p) -> len (Tokens p) = toknext p.
Proof. unfold Tokens, len. rewrite length_take. lia. Qed.

Lemma Tokens_lookup p (i : Z) :
  0 <= i < toknext p -> Tokens p !! Z.to_nat i = tokens p !! Z.to_nat i.
Proof. intros H. unfold Tokens. apply lookup_take_lt. lia. Qed.

Lemma Tokens_set_pos x p : Tokens (set_pos x p) = Tokens p.
Proof. reflexivity. Qed.

Lemma Parse_body_at json p c :
  index json (pos p) = Some c -> Parse_body json p = Parse_switch json c p.
Proof. intros H. unfold Parse_body, bind, byte_at. by rewrite H. Qed.

Lemma Parse_body_view json p :
  bounded p -> 0 <= pos p < len json ->
  body_matches json p (view_step json (view_of p)).
Proof.
  intros [Hn Hs] Hq.
  destruct (rest_cons json (pos p) Hq) as (c & Hc & Hr).
  unfold view_step, body_matches. cbn [view_of vpos vsuper vtoks].
  rewrite Hr, (Parse_body_at _ _ _ Hc), (len_Tokens p Hn).
  unfold Parse_switch.
  destruct ((c == "{") || (c == "[")) eqn:E1.
  { (* opening bracket *)
    unfold bind, get, modify, ret.
    destruct (toknext p <? len (tokens p)) eqn:Ecap.
    - apply Z.ltb_lt in Ecap.
      destruct (allocToken_ok
                  (mkToken (if c == "{" then Object else Array)
                     (pos p) (-1) 0 (toksuper p)) p)
        as (p1 & Ha & Hpos & Hsup & Hnext & Hlen & Htoks); [lia | done |].
      rewrite Ha. eexists. split; [reflexivity|].
      unfold view_of. cbn.
      rewrite Hnext, Hpos, Hlen, <- Htoks.
      replace (toknext p + 1 - 1) with (toknext p) by lia.
      done.
    - apply Z.ltb_ge in Ecap.
      rewrite allocToken_full by lia. eauto. }
  destruct ((c == "}") || (c == "]")) eqn:E2.
  { (* closing bracket *)
    unfold bind, get, modify, ret.
    destruct (toksuper p =? -1) eqn:Es.
    - eexists. split; [reflexivity|]. done.
    - assert (0 <= toksuper p < toknext p) as Hs' by lia.
      destruct (index_in_range (tokens p) (toksuper p)) as (t & Ht & Hl);
        [lia|].
      unfold store, load. rewrite Ht. cbn.
      destruct (index_in_range
                  (alter (set_End (pos p + 1)) (Z.to_nat (toksuper p))
                     (tokens p)) (toksuper p)) as (t' & Ht' & Hl').
      { unfold len. rewrite length_alter. unfold len in Hn. lia. }
      rewrite Ht'. eexists. split; [reflexivity|].
      rewrite list_lookup_alter_eq, Hl in Hl'. cbn in Hl'.
      injection Hl' as <-.
      unfold view_of, Tokens, parent_at, len. cbn.
      rewrite length_alter, take_alter_lt by lia.
      rewrite lookup_take_lt, Hl by lia. done. }
  destruct (c == quote) eqn:E3.
  { (* string *)
    unfold parseString, bind, get, modify.
    rewrite parseString_loop_spec; cbn [pos set_pos]; [|lia|unfold len; lia].
    destruct (closing_quote (rest json (pos p + 1))) as [k|]; [|eauto].
    unfold finish_string, bind, modify, ret.
    destruct (toknext p <? len (tokens p)) eqn:Ecap.
    - apply Z.ltb_lt in Ecap.
      match goal with |- context [allocToken ?tok ?q] =>
        destruct (allocToken_ok tok q)
          as (p1 & Ha & Hpos & Hsup & Hnext & Hlen & Htoks);
          [cbn; lia | cbn; done | rewrite Ha]
      end.
      eexists. split; [reflexivity|].
      cbn in Hpos, Hsup, Hnext, Hlen, Htoks.
      unfold view_of. cbn. rewrite Hnext, Hpos, Hlen, Hsup.
      rewrite !Tokens_set_pos in *. rewrite Htoks. done.
    - apply Z.ltb_ge in Ecap.
      rewrite allocToken_full by (cbn; lia). eauto. }
  destruct ((c == x09) || (c == x0d) || (c == x0a) || (c == " ")) eqn:E4.
  { unfold bind, modify, ret. eexists. split; [reflexivity|]. done. }
  destruct (c == ":") eqn:E5.
  { unfold bind, modify, ret. eexists. split; [reflexivity|]. done. }
  destruct (c == ",") eqn:E6.
  { (* comma *)
    unfold bind, get, modify, ret, comma_super.
    destruct (toksuper p =? -1) eqn:Es.
    - eexists. split; [reflexivity|]. done.
    - assert (0 <= toksuper p < toknext p) as Hs' by lia.
      destruct (index_in_range (tokens p) (toksuper p)) as (t & Ht & Hl);
        [lia|].
      unfold load. rewrite Ht.
      rewrite Tokens_lookup, Hl by lia. unfold is_container.
      destruct (Type_ t); eexists; (split; [reflexivity|]); done. }
  (* primitive *)
  unfold parsePrimitive, bind, get, ret.
  rewrite parsePrimitive_loop_spec; [|lia|unfold len; lia].
  rewrite Hr. cbn [pos set_pos End_ Start].
  destruct (pos p + Z.of_nat (primitive_run (c :: rest json (pos p + 1)))
            =? pos p) eqn:Ek; [eauto|].
  destruct (toknext p <? len (tokens p)) eqn:Ecap.
  - apply Z.ltb_lt in Ecap.
    match goal with |- context [allocToken ?tok ?q] =>
      destruct (allocToken_ok tok q)
        as (p1 & Ha & Hpos & Hsup & Hnext & Hlen & Htoks);
        [cbn; lia | cbn; done | rewrite Ha]
    end.
    eexists. split; [reflexivity|].
    cbn in Hpos, Hsup, Hnext, Hlen, Htoks.
    unfold view_of. rewrite Hnext, Hpos, Hlen, Hsup.
    rewrite !Tokens_set_pos in *. rewrite Htoks. done.
  - apply Z.ltb_ge in Ecap.
    rewrite allocToken_full by (cbn; lia). eauto.
Qed.

(** ** Token-list invariants *)

Lemma same_shape_linked l l' : Forall2 same_shape l l' -> Forall2 linked l l'.
Proof.
  intros H. eapply Forall2_impl; [exact H|]. intros t t' (? & ? & ?). by split.
Qed.

Lemma linked_refl l : Forall2 linked l l.
Proof. apply Forall_Forall2_diag, Forall_forall. by split. Qed.

Lemma linked_alter f k l :
  (forall t, linked t (f t)) -> Forall2 linked l (alter f k l).
Proof.
  intros Hf. apply Forall2_alter_r; [apply linked_refl|].
  intros x y _ _ [H1 H2]. destruct (Hf y) as [H3 H4].
  split; congruence.
Qed.

Lemma same_shape_alter f k l :
  (forall t, same_shape t (f t)) -> Forall2 same_shape l (alter f k l).
Proof.
  intros Hf. apply Forall2_alter_r.
  - apply Forall_Forall2_diag, Forall_forall. by repeat split.
  - intros x y _ _ (H1 & H2 & H3). destruct (Hf y) as (H4 & H5 & H6).
    repeat split; congruence.
Qed.

Lemma same_shape_fmap f l :
  (forall t, same_shape t (f t)) -> Forall2 same_shape l (f <$> l).
Proof.
  intros Hf. apply Forall2_fmap_r, Forall_Forall2_diag, Forall_forall.
  intros t _. apply Hf.
Qed.

Lemma children_cons j t l :
  children j (t :: l) = (if decide (ParentIdx t = j) then 1 else 0) + children j l.
Proof.
  unfold children, len. rewrite filter_cons.
  destruct (decide (ParentIdx t = j)); simpl; lia.
Qed.

Lemma children_nil j : children j [] = 0.
Proof. reflexivity. Qed.

Lemma children_app j l1 l2 :
  children j (l1 ++ l2) = children j l1 + children j l2.
Proof.
  induction l1 as [|t l1 IH]; [by rewrite children_nil|].
  simpl. rewrite !children_cons, IH. lia.
Qed.

Lemma children_linked j l l' :
  Forall2 linked l l' -> children j l = children j l'.
Proof.
  induction 1 as [|t t' l l' [_ Hp] _ IH]; [done|].
  rewrite !children_cons, IH, Hp. done.
Qed.

Lemma children_none j l :
  (forall i t, l !! i = Some t -> ParentIdx t <> j) -> children j l = 0.
Proof.
  induction l as [|t l IH]; intros H; [done|].
  rewrite children_cons, IH.
  - destruct (decide (ParentIdx t = j)) as [E|]; [|done].
    by destruct (H O t eq_refl).
  - intros i t' Hi. apply (H (S i) t' Hi).
Qed.

Lemma is_container_linked t t' : linked t t' -> is_container t = is_container t'.
Proof. intros [H _]. unfold is_container. by rewrite H. Qed.

Lemma parent_ok_linked l l' i j :
  Forall2 linked l l' -> parent_ok l i j -> parent_ok l' i j.
Proof.
  intros Hl [->|(Hj & t & Ht & Hc)]; [by left|]. right. split; [done|].
  destruct (Forall2_lookup_l _ _ _ _ _ Hl Ht) as (t' & Ht' & Hlink).
  exists t'. split; [done|]. by rewrite <- (is_container_linked _ _ Hlink).
Qed.

Lemma parent_ok_app l x i j : parent_ok l i j -> parent_ok (l ++ x) i j.
Proof.
  intros [->|(Hj & t & Ht & Hc)]; [by left|]. right. split; [done|].
  exists t. split; [|done]. by apply lookup_app_l_Some.
Qed.

Lemma parent_ok_mono l i i' j : i <= i' -> parent_ok l i j -> parent_ok l i' j.
Proof.
  intros Hi [->|(Hj & H)]; [by left|]. right. split; [lia | done].
Qed.

Lemma parent_ok_bound l i j : parent_ok l i j -> j < i \/ j = -1.
Proof. intros [->|(Hj & _)]; [by right | left; lia]. Qed.

Lemma links_ok_linked l l' :
  Forall2 linked l l' -> links_ok l -> links_ok l'.
Proof.
  intros Hl H i t' Ht'.
  destruct (Forall2_lookup_r _ _ _ _ _ Hl Ht') as (t & Ht & [_ Hp]).
  rewrite <- Hp. eapply parent_ok_linked; [done|]. by apply H.
Qed.

Lemma sizes_ok_same_shape l l' :
  Forall2 same_shape l l' -> sizes_ok l -> sizes_ok l'.
Proof.
  intros Hl H i t' Ht'.
  destruct (Forall2_lookup_r _ _ _ _ _ Hl Ht') as (t & Ht & (_ & _ & Hs)).
  rewrite <- Hs, <- (children_linked _ l l') by by apply same_shape_linked.
  by apply H.
Qed.

Lemma len_same_shape l l' : Forall2 same_shape l l' -> len l' = len l.
Proof. intros H. unfold len. by rewrite (Forall2_length _ _ _ H). Qed.

Lemma vinv_same_shape q q' s l l' :
  Forall2 same_shape l l' -> vinv (mkView q s l) -> vinv (mkView q' s l').
Proof.
  intros Hl [Hs Hk Hz]. cbn in *. constructor; cbn.
  - rewrite (len_same_shape _ _ Hl).
    eapply parent_ok_linked; [by apply same_shape_linked | done].
  - eapply links_ok_linked; [by apply same_shape_linked | done].
  - by eapply sizes_ok_same_shape.
Qed.

Lemma children_single j tok :
  children j [tok] = if decide (ParentIdx tok = j) then 1 else 0.
Proof. rewrite children_cons, children_nil. lia. Qed.

Lemma links_ok_no_child l : links_ok l -> children (len l) l = 0.
Proof.
  intros H. apply children_none. intros i t Ht.
  pose proof (lookup_lt_Some _ _ _ Ht).
  destruct (parent_ok_bound _ _ _ (H i t Ht)); unfold len; lia.
Qed.

Lemma vinv_push q' s' tok v :
  vinv v -> ParentIdx tok = vsuper v -> Size tok = 0 ->
  s' = vsuper v \/ (s' = len (vtoks v) /\ is_container tok = true) ->
  vinv (mkView q' s' (push (vsuper v) tok (vtoks v))).
Proof.
  destruct v as [q0 s l]. intros [Hs Hk Hz] Hp Hsz Hs'. cbn in *.
  unfold push.
  set (l1 := if s =? -1 then l else alter incr_Size (Z.to_nat s) l).
  assert (Forall2 linked l l1) as Hl1.
  { subst l1. destruct (s =? -1); [apply linked_refl|].
    apply linked_alter. by split. }
  assert (length l1 = length l) as Hlen.
  { symmetry. by eapply Forall2_length. }
  assert (parent_ok (l1 ++ [tok]) (len l) s) as Hs1.
  { by apply parent_ok_app, (parent_ok_linked l). }
  assert (len (l1 ++ [tok]) = len l + 1) as Hlen'.
  { unfold len. rewrite length_app, Hlen. simpl. lia. }
  constructor; cbn.
  - rewrite Hlen'. destruct Hs' as [->|[-> Hc]].
    + eapply parent_ok_mono; [|done]. lia.
    + right. split; [unfold len; lia|]. exists tok. split; [|done].
      unfold len. rewrite Nat2Z.id, <- Hlen. apply list_lookup_middle. done.
  - intros i t Ht. apply lookup_app_Some in Ht as [Ht|[Hi Ht]].
    + apply parent_ok_app. by apply (links_ok_linked l l1).
    + destruct (i - length l1)%nat eqn:E; [|done]. injection Ht as <-.
      rewrite Hp. eapply parent_ok_mono; [|done]. unfold len. lia.
  - intros i t Ht. rewrite children_app, children_single, Hp.
    rewrite <- (children_linked _ l l1) by done.
    apply lookup_app_Some in Ht as [Ht|[Hi Ht]].
    + subst l1. destruct (s =? -1) eqn:Es.
      * rewrite (Hz i t Ht).
        destruct (decide (s = Z.of_nat i)); [lia|lia].
      * rewrite list_lookup_alter in Ht.
        destruct (decide (Z.to_nat s = i)) as [E|E].
        -- destruct (l !! Z.to_nat s) as [t0|] eqn:Ht0; [|done].
           injection Ht as <-. cbn. subst i. rewrite (Hz _ _ Ht0).
           destruct Hs as [?|[? _]]; [lia|].
           destruct (decide (s = Z.of_nat (Z.to_nat s))); lia.
        -- rewrite (Hz i t Ht).
           destruct (decide (s = Z.of_nat i)); [lia|lia].
    + destruct (i - length l1)%nat eqn:E; [|done]. injection Ht as <-.
      assert (i = length l) as -> by lia.
      rewrite Hsz. pose proof (links_ok_no_child l Hk) as Hno.
      unfold len in Hno. rewrite Hno.
      destruct (parent_ok_bound _ _ _ Hs); unfold len in *;
        destruct (decide (s = Z.of_nat (length l))); lia.
Qed.

(** ** Progress of the sub-scanners *)

Lemma closing_quote_lt_aux n :
  forall s k, (length s <= n)%nat -> closing_quote s = Some k -> (k < length s)%nat.
Proof.
  induction n as [|n IH]; intros s k Hn H.
  - destruct s; [discriminate | simpl in Hn; lia].
  - destruct s as [|c s]; [discriminate|]. simpl in *.
    destruct (c == quote); [injection H as <-; lia|].
    destruct (c == backslash).
    + destruct s as [|c' s]; [discriminate|].
      destruct (closing_quote s) as [k'|] eqn:E; [|discriminate].
      injection H as <-. apply IH in E; simpl in *; lia.
    + destruct (closing_quote s) as [k'|] eqn:E; [|discriminate].
      injection H as <-. apply IH in E; lia.
Qed.

Lemma closing_quote_lt s k : closing_quote s = Some k -> (k < length s)%nat.
Proof. by apply (closing_quote_lt_aux (length s)). Qed.

Lemma primitive_run_le s : (primitive_run s <= length s)%nat.
Proof.
  induction s as [|c s IH]; simpl; [lia|]. destruct (is_delimiter c); lia.
Qed.

Lemma length_rest json q :
  0 <= q <= len json -> Z.of_nat (length (rest json q)) = len json - q.
Proof. unfold rest, len. rewrite length_drop. lia. Qed.

(** ** One iteration on the view keeps the invariants and moves forward *)

Lemma len_alter {A} (f : A -> A) k l : len (alter f k l) = len l.
Proof. unfold len. by rewrite length_alter. Qed.

Lemma len_push s tok l : len (push s tok l) = len l + 1.
Proof.
  unfold push, len. rewrite length_app. simpl.
  destruct (s =? -1); rewrite ?length_alter; lia.
Qed.

Lemma parent_at_ok l s :
  links_ok l -> parent_ok l (len l) s -> s <> -1 ->
  parent_ok l (len l) (parent_at s l).
Proof.
  intros Hk [?|(Hs & t & Ht & _)] Hne; [done|].
  unfold parent_at. rewrite Ht.
  eapply parent_ok_mono; [|apply (Hk _ _ Ht)]. lia.
Qed.

Lemma view_step_ok json v :
  vinv v -> 0 <= vpos v < len json -> step_ok json v (view_step json v).
Proof.
  intros Hv Hq. destruct (rest_cons json (vpos v) Hq) as (c & Hc & Hr).
  pose proof (length_rest json (vpos v + 1)) as Hrest.
  unfold view_step. rewrite Hr.
  destruct ((c == "{") || (c == "[")) eqn:E1.
  { cbn. rewrite len_push. split; [|lia].
    apply vinv_push; cbn; try done. right. split; [done|].
    unfold is_container. cbn. by destruct (c == "{"). }
  destruct ((c == "}") || (c == "]")) eqn:E2.
  { destruct (vsuper v =? -1) eqn:Es; cbn.
    - split; [|lia]. destruct v, Hv. by constructor.
    - split; [|rewrite len_alter; lia].
      destruct v as [q s l]. cbn in *.
      apply (vinv_same_shape q _ _ l).
      + apply same_shape_alter. by repeat split.
      + destruct Hv as [Hs Hk Hz]. cbn in *. constructor; cbn; try done.
        apply parent_at_ok; [done | done | lia]. }
  destruct (c == quote) eqn:E3.
  { destruct (closing_quote (rest json (vpos v + 1))) as [k|] eqn:Ek; [|done].
    apply closing_quote_lt in Ek. cbn. rewrite len_push.
    split; [|lia]. apply vinv_push; cbn; try done. by left. }
  destruct ((c == x09) || (c == x0d) || (c == x0a) || (c == " ")) eqn:E4.
  { cbn. split; [|lia]. destruct v, Hv. by constructor. }
  destruct (c == ":") eqn:E5.
  { cbn. split; [|lia]. destruct v, Hv. by constructor. }
  destruct (c == ",") eqn:E6.
  { cbn. split; [|lia]. destruct v as [q s l], Hv as [Hs Hk Hz]. cbn in *.
    constructor; cbn; try done. unfold comma_super.
    destruct (s =? -1) eqn:Es; [done|].
    destruct (l !! Z.to_nat s) as [t|] eqn:Ht; [|done].
    destruct (is_container t); [done|].
    pose proof (parent_at_ok l s Hk Hs) as Hp. unfold parent_at in Hp.
    rewrite Ht in Hp. apply Hp. lia. }
  cbv zeta.
  pose proof (primitive_run_le (c :: rest json (vpos v + 1))) as Hle.
  cbn [length] in Hle.
  set (k := primitive_run (c :: rest json (vpos v + 1))) in *. clearbody k.
  destruct (vpos v + Z.of_nat k =? vpos v) eqn:Ek; [done|].
  cbn. rewrite len_push. split; [|lia].
  apply vinv_push; cbn; try done. by left.
Qed.

Lemma view_loop_done fuel json v v' :
  vinv v -> 0 <= vpos v <= len json ->
  view_loop fuel json v = VDone v' ->
  vinv v' /\ vpos v' = len json /\ len (vtoks v) <= len (vtoks v').
Proof.
  revert v. induction fuel as [|fuel IH]; intros v Hv Hq; simpl;
    destruct (Z.ltb_spec (vpos v) (len json)) as [Hlt|Hlt].
  - intros [=].
  - intros [= <-]. split; [done | split; lia].
  - pose proof (view_step_ok json v Hv ltac:(lia)) as Hok.
    destruct (view_step json v) as [e|v1|v1]; [intros [=]| |];
      cbn in Hok; destruct Hok as (Hv1 & Hq1 & Hl1);
      intros H; apply IH in H as (? & ? & ?); try done; try lia;
      (split; [done | split; lia]).
  - intros [= <-]. split; [done | split; lia].
Qed.

Lemma view_loop_fuel fuel json v :
  vinv v -> 0 <= vpos v <= len json -> len json - vpos v <= Z.of_nat fuel ->
  view_loop fuel json v <> VNoFuel.
Proof.
  revert v. induction fuel as [|fuel IH]; intros v Hv Hq Hf; simpl;
    destruct (Z.ltb_spec (vpos v) (len json)) as [Hlt|Hlt];
    try discriminate; try lia.
  pose proof (view_step_ok json v Hv ltac:(lia)) as Hok.
  destruct (view_step json v) as [e|v1|v1]; [discriminate| |];
    cbn in Hok; destruct Hok as (Hv1 & Hq1 & Hl1);
    apply IH; try done; lia.
Qed.

(** The [default] case of the switch is reached only on a byte that is not
    a delimiter of the primitive sub-scanner. *)
Lemma default_case_not_delimiter c :
  (c == "}") || (c == "]") = false ->
  (c == x09) || (c == x0d) || (c == x0a) || (c == " ") = false ->
  (c == ",") = false ->
  is_delimiter c = false.
Proof.
  intros E2 E4 E6. unfold is_delimiter.
  apply orb_false_iff in E2 as [E2a E2b].
  apply orb_false_iff in E4 as [E4 E4d].
  apply orb_false_iff in E4 as [E4 E4c].
  apply orb_false_iff in E4 as [E4a E4b].
  by rewrite E2a, E2b, E4a, E4b, E4c, E4d, E6.
Qed.

(** The only error an iteration on the view can raise. *)
Lemma view_step_err json v e :
  view_step json v = VErr e -> e = UnclosedString.
Proof.
  unfold view_step. destruct (rest json (vpos v)) as [|c s]; [discriminate|].
  destruct ((c == "{") || (c == "[")) eqn:E1; [discriminate|].
  destruct ((c == "}") || (c == "]")) eqn:E2; [discriminate|].
  destruct (c == quote) eqn:E3.
  { destruct (closing_quote s); [discriminate|]. by intros [= <-]. }
  destruct ((c == x09) || (c == x0d) || (c == x0a) || (c == " ")) eqn:E4;
    [discriminate|].
  destruct (c == ":") eqn:E5; [discriminate|].
  destruct (c == ",") eqn:E6; [discriminate|].
  pose proof (default_case_not_delimiter c E2 E4 E6) as Hd.
  cbv zeta. cbn [primitive_run]. rewrite Hd.
  destruct (Z.eqb_spec (vpos v + Z.of_nat (S (primitive_run s))) (vpos v));
    [lia | discriminate].
Qed.

Lemma view_loop_err fuel json v e :
  view_loop fuel json v = VFailed e -> e = UnclosedString.
Proof.
  revert v. induction fuel as [|fuel IH]; intros v; simpl;
    destruct (vpos v <? len json); try discriminate.
  destruct (view_step json v) as [e'|v1|v1] eqn:Hs; try apply IH.
  intros [= <-]. by eapply view_step_err.
Qed.

(** ** The concrete loop against the loop on the view *)

Lemma bounded_of_view p :
  0 <= toknext p <= len (tokens p) -> vinv (view_of p) -> bounded p.
Proof.
  intros Hn [Hs _ _]. split; [done|]. cbn in Hs.
  rewrite (len_Tokens p Hn) in Hs.
  destruct Hs as [?|[? _]]; [by left | by right].
Qed.

Lemma Parse_loop_S fuel json p :
  pos p < len json ->
  Parse_loop (S fuel) json p =
    match Parse_body json p with
    | Return None p' => Parse_loop fuel json p'
    | other => other
    end.
Proof. intros H. simpl. by destruct (Z.ltb_spec (pos p) (len json)); [|lia]. Qed.

Lemma Parse_loop_end fuel json p :
  len json <= pos p -> Parse_loop fuel json p = Return None p.
Proof.
  intros H. destruct fuel; simpl;
    by destruct (Z.ltb_spec (pos p) (len json)); [lia|].
Qed.

Lemma Parse_loop_view fuel json p :
  bounded p -> vinv (view_of p) -> 0 <= pos p <= len json ->
  loop_matches fuel json p (view_loop fuel json (view_of p)).
Proof.
  revert p. induction fuel as [|fuel IH]; intros p Hb Hv Hq; simpl;
    change (vpos (view_of p)) with (pos p);
    destruct (Z.ltb_spec (pos p) (len json)) as [Hlt|Hlt]; try done.
  1, 3: (unfold loop_matches; cbn [vtoks view_of];
         rewrite (len_Tokens p (proj1 Hb)), Parse_loop_end by done;
         destruct (Z.leb_spec (toknext p) (len (tokens p)));
           [eauto | destruct Hb; lia]).
  pose proof (Parse_body_view json p Hb (conj (proj1 Hq) Hlt)) as Hm.
  pose proof (view_step_ok json (view_of p) Hv (conj (proj1 Hq) Hlt)) as Hok.
  destruct (view_step json (view_of p)) as [e|v1|v1] eqn:Hstep; cbn in Hm, Hok.
  - destruct Hm as (p' & Hm). unfold loop_matches.
    rewrite Parse_loop_S, Hm by done. eauto.
  - destruct Hm as (p' & Hm & Hview & Hnext & Hlen).
    destruct Hok as (Hv1 & Hq1 & Hl1). subst v1.
    assert (bounded p') as Hb'.
    { apply bounded_of_view; [|done]. rewrite Hnext, Hlen. apply Hb. }
    specialize (IH p' Hb' Hv1 ltac:(cbn in Hq1; lia)).
    unfold loop_matches in *. rewrite Parse_loop_S, Hm by done.
    rewrite Hlen in IH. exact IH.
  - destruct Hok as (Hv1 & Hq1 & Hl1).
    rewrite (len_Tokens p (proj1 Hb)) in Hl1.
    destruct (Z.ltb_spec (toknext p) (len (tokens p))) as [Ecap|Ecap].
    + destruct Hm as (p' & Hm & Hview & Hnext & Hlen). subst v1.
      assert (bounded p') as Hb'.
      { apply bounded_of_view; [|done]. rewrite Hnext, Hlen.
        destruct Hb. lia. }
      specialize (IH p' Hb' Hv1 ltac:(cbn in Hq1; lia)).
      unfold loop_matches in *. rewrite Parse_loop_S, Hm by done.
      rewrite Hlen in IH. exact IH.
    + destruct Hm as (p' & Hm). unfold loop_matches.
      rewrite Parse_loop_S, Hm by done.
      destruct (view_loop fuel json v1) as [e|v2|] eqn:Hrun; eauto.
      apply view_loop_done in Hrun as (_ & _ & Hmono); [|done|lia].
      destruct (Z.leb_spec (len (vtoks v2)) (len (tokens p))); [lia | eauto].
Qed.

(** ** [Parse] against a full run on the view *)

Lemma vinv_init : vinv view_init.
Proof. constructor; [by left | intros i t [=] | intros i t [=]]. Qed.

Lemma len_fmap {A B} (f : A -> B) l : len (f <$> l) = len l.
Proof. unfold len. by rewrite length_fmap. Qed.

Lemma Parse_unfold json p0 :
  Parse json p0 =
    match Parse_loop (length json) json (mkParser 0 0 (-1) (tokens p0)) with
    | Return (Some e) p => Return (0, Some e) p
    | Return None p =>
        let p' := set_tokens (close_token (len json) <$> tokens p) p in
        Return (if toksuper p =? -1 then (toknext p, None)
                else (0, Some UnclosedContainer)) p'
    | Panic => Panic
    | OutOfFuel => OutOfFuel
    end.
Proof.
  unfold Parse, bind, modify, get, ret.
  destruct (Parse_loop _ _ _) as [[e|] p| |]; try reflexivity.
  cbn. by destruct (toksuper p =? -1).
Qed.

Lemma Parse_view json p0 : Parse_matches json p0 (view_run json).
Proof.
  set (p1 := mkParser 0 0 (-1) (tokens p0)).
  assert (bounded p1) as Hb.
  { split; cbn; [unfold len; lia | by left]. }
  assert (view_of p1 = view_init) as Hview by reflexivity.
  pose proof (Parse_loop_view (length json) json p1 Hb) as Hm.
  rewrite Hview in Hm. specialize (Hm vinv_init ltac:(cbn; unfold len; lia)).
  pose proof (view_loop_fuel (length json) json view_init vinv_init
                ltac:(cbn; unfold len; lia) ltac:(cbn; unfold len; lia))
    as Hfuel.
  unfold view_run, Parse_matches, loop_matches in *.
  rewrite Parse_unfold. fold p1.
  destruct (view_loop (length json) json view_init) as [e|v|]; [| |done].
  - destruct Hm as (p & e' & Hm & He). rewrite Hm. eauto.
  - change (len (tokens p1)) with (len (tokens p0)) in Hm.
    destruct (len (vtoks v) <=? len (tokens p0)).
    + destruct Hm as (p & Hm & <- & Hbp & Hlen). rewrite Hm.
      eexists. split.
      * unfold Parse_result. cbn [vsuper vtoks view_of].
        rewrite (len_Tokens p (proj1 Hbp)). reflexivity.
      * cbn [vsuper vtoks view_of].
        rewrite (len_Tokens p (proj1 Hbp)).
        split; [unfold Tokens; cbn; by rewrite fmap_take|].
        split; [done|]. cbn. by rewrite len_fmap.
    + destruct Hm as (p & Hm). rewrite Hm. eauto.
Qed.

(** ** Consequences for [Parse] *)

Lemma vinv_run json v : view_run json = VDone v -> vinv v.
Proof.
  intros H. apply view_loop_done in H as (H & _); [done | apply vinv_init |].
  cbn. unfold len. lia.
Qed.

(** [Parse] always returns: it neither panics nor exhausts the fuel. *)
Lemma Parse_total json p0 : exists r p, Parse json p0 = Return r p.
Proof.
  pose proof (Parse_view json p0) as H. unfold Parse_matches in H.
  destruct (view_run json) as [e|v|]; [| |done].
  - destruct H as (p & e' & H & _). eauto.
  - destruct (len (vtoks v) <=? len (tokens p0)).
    + destruct H as (p & H & _). eauto.
    + destruct H as (p & H). eauto.
Qed.

Lemma Parse_success json p0 n p :
  Parse json p0 = Return (n, None) p ->
  exists v, view_run json = VDone v /\ vinv v /\ vsuper v = -1 /\
            n = len (vtoks v) /\ len (vtoks v) <= len (tokens p0) /\
            Tokens p = close_token (len json) <$> vtoks v /\
            toknext p = n /\ len (tokens p) = len (tokens p0).
Proof.
  intros HP. pose proof (Parse_view json p0) as H. unfold Parse_matches in H.
  destruct (view_run json) as [e|v|] eqn:Hrun; [| |done].
  - destruct H as (p' & e' & H & _). congruence.
  - destruct (Z.leb_spec (len (vtoks v)) (len (tokens p0))).
    + destruct H as (p' & H & Htoks & Hnext & Hlen).
      rewrite HP in H. injection H as Hres <-.
      unfold Parse_result in Hres.
      destruct (Z.eqb_spec (vsuper v) (-1)); [|discriminate].
      injection Hres as ->. exists v.
      split; [done|]. split; [by apply (vinv_run json)|]. by repeat split.
    + destruct H as (p' & H). congruence.
Qed.

Lemma Parse_of_view json p0 v :
  view_run json = VDone v ->
  if len (vtoks v) <=? len (tokens p0) then
    exists p, Parse json p0 = Return (Parse_result v) p /\
              Tokens p = close_token (len json) <$> vtoks v /\
              toknext p = len (vtoks v) /\
              len (tokens p) = len (tokens p0)
  else exists p, Parse json p0 = Return (0, Some Overflow) p.
Proof.
  intros Hrun. pose proof (Parse_view json p0) as H.
  unfold Parse_matches in H. by rewrite Hrun in H.
Qed.

Lemma Parse_count json p0 n p :
  Parse json p0 = Return (n, None) p -> n = toknext p.
Proof. intros H. by apply Parse_success in H as (v & _ & _ & _ & _ & _ & _ & -> & _). Qed.

Lemma NewParser_Some m :
  0 <= m -> exists p, NewParser m = Some p /\ len (tokens p) = m.
Proof.
  intros H. unfold NewParser. destruct (Z.ltb_spec m 0); [lia|].
  eexists. split; [reflexivity|]. cbn. unfold len.
  rewrite length_replicate. lia.
Qed.

Lemma len_nonneg {A} (l : list A) : 0 <= len l.
Proof. unfold len. lia. Qed.

(** ** Example 1 *)

Lemma view_run_example1 :
  view_run example1 = VDone (mkView 34 (-1) example1_tokens).
Proof. vm_compute. reflexivity. Qed.

(** C1: on [{"key": "value", "arr": [1, 2, 3]}] and any capacity of at least
    8, [Parse] succeeds and reports 8 tokens: the Object of Size 4, the
    String tokens "key", "value" and "arr" whose parent is the Object, the
    Array of Size 3 whose parent is the Object, and the Primitive tokens "1",
    "2", "3" whose parent is the Array. *)
Theorem Parse_example1 (numTokens : Z) :
  8 <= numTokens ->
  exists p p',
    NewParser numTokens = Some p /\
    Parse example1 p = Return (8, None) p' /\
    Tokens p' = example1_tokens /\
    text example1 <$> example1_tokens =
      [example1; str "key"; str "value"; str "arr"; str "[1, 2, 3]";
       str "1"; str "2"; str "3"].
Proof.
  intros Hcap.
  destruct (NewParser_Some numTokens) as (p & Hp & Hlen); [lia|].
  pose proof (Parse_of_view example1 p _ view_run_example1) as H.
  rewrite Hlen in H. cbn [vtoks] in H.
  change (len example1_tokens) with 8 in H.
  destruct (Z.leb_spec 8 numTokens); [|lia].
  destruct H as (p' & HP & Htoks & _).
  exists p, p'. repeat split; done.
Qed.

Lemma Parse_example1_witness :
  8 <= 10 /\
  exists p p',
    NewParser 10 = Some p /\
    Parse example1 p = Return (8, None) p' /\
    Tokens p' = example1_tokens /\
    text example1 <$> example1_tokens =
      [example1; str "key"; str "value"; str "arr"; str "[1, 2, 3]";
       str "1"; str "2"; str "3"].
Proof. split; [lia | apply (Parse_example1 10); lia]. Defined.

(** ** Capacity boundary *)

(** C3, as stated, fails on the empty buffer: it needs 0 tokens and capacity
    0 succeeds, but there is no scanner of capacity -1 to overflow,
    [NewParser (-1)] panics in [make]. *)
Lemma capacity_boundary_counterexample :
  needs [] 0 /\ succeeds_with [] 0 0 /\
  NewParser (0 - 1) = None /\ ~ overflows [] (0 - 1).
Proof.
  split; [|split; [|split]].
  - exists 0. eexists _, _. split; reflexivity.
  - eexists _, _. repeat split; reflexivity.
  - reflexivity.
  - intros (p & p' & Hp & _). discriminate Hp.
Qed.

(** C3 (amended): when a buffer needs exactly [n] tokens, [Parse] at
    capacity [n] succeeds with the array neither grown nor any token dropped,
    and, when [n >= 1], [Parse] at capacity [n - 1] returns the Overflow
    error. *)
Theorem capacity_boundary (json : list byte) (n : Z) :
  needs json n ->
  succeeds_with json n n /\ (1 <= n -> overflows json (n - 1)).
Proof.
  intros (cap & p & p' & Hp & HP).
  apply Parse_success in HP as (v & Hrun & _ & Hs & -> & _).
  split.
  - destruct (NewParser_Some (len (vtoks v))) as (q & Hq & Hlen);
      [apply len_nonneg|].
    pose proof (Parse_of_view json q v Hrun) as H. rewrite Hlen in H.
    destruct (Z.leb_spec (len (vtoks v)) (len (vtoks v))); [|lia].
    destruct H as (q' & HP & Htoks & Hnext & Hlen').
    exists q, q'. unfold Parse_result in HP.
    destruct (Z.eqb_spec (vsuper v) (-1)); [|done].
    split; [done|]. split; [congruence|]. split; [done|].
    by rewrite Htoks, len_fmap.
  - intros Hn.
    destruct (NewParser_Some (len (vtoks v) - 1)) as (q & Hq & Hlen); [lia|].
    pose proof (Parse_of_view json q v Hrun) as H. rewrite Hlen in H.
    destruct (Z.leb_spec (len (vtoks v)) (len (vtoks v) - 1)); [lia|].
    destruct H as (q' & HP). by exists q, q'.
Qed.

Lemma capacity_boundary_witness :
  needs example1 8 /\
  (succeeds_with example1 8 8 /\ (1 <= 8 -> overflows example1 (8 - 1))).
Proof.
  assert (needs example1 8) as H.
  { exists 8. eexists _, _. split; [reflexivity | vm_compute; reflexivity]. }
  split; [exact H | exact (capacity_boundary example1 8 H)].
Defined.

(** ** Parent links and child counts *)

(** C4: after a successful [Parse], a token at index [i] whose [ParentIdx]
    is [j], not the sentinel, has [j < i], and the token at [j] is an Object
    or an Array. *)
Theorem parent_links (json : list byte) (p0 p : Parser) (n : Z)
  (i j : Z) (t : Token) :
  Parse json p0 = Return (n, None) p ->
  index (Tokens p) i = Some t ->
  ParentIdx t = j ->
  j <> -1 ->
  j < i /\
  exists tj, index (Tokens p) j = Some tj /\
             (Type_ tj = Object \/ Type_ tj = Array).
Proof.
  intros HP Hi Hj Hne.
  apply Parse_success in HP as (v & _ & [_ Hk _] & _ & _ & _ & Htoks & _).
  assert (links_ok (Tokens p)) as Hk'.
  { rewrite Htoks. eapply links_ok_linked; [|exact Hk].
    apply same_shape_linked, same_shape_fmap.
    intros t0. unfold close_token.
    by destruct ((End_ t0 =? -1) && negb (Start t0 =? -1)). }
  apply index_Some in Hi as [Hi0 Hi].
  destruct (Hk' _ _ Hi) as [?|(Hr & tj & Htj & Hc)]; [congruence|].
  rewrite Hj in *. split; [lia|]. exists tj. split.
  - apply index_Some. split; [lia | done].
  - unfold is_container in Hc. destruct (Type_ tj); auto; discriminate.
Qed.

(** C7: after a successful [Parse], the [Size] of every token, in
    particular of every Object or Array token, at index [j] is the number of
    tokens of the result whose [ParentIdx] is [j]. *)
Theorem size_counts_children (json : list byte) (p0 p : Parser) (n : Z)
  (j : Z) (tj : Token) :
  Parse json p0 = Return (n, None) p ->
  index (Tokens p) j = Some tj ->
  Size tj = len (filter (fun t => ParentIdx t = j) (Tokens p)).
Proof.
  intros HP Hj.
  apply Parse_success in HP as (v & _ & [_ _ Hz] & _ & _ & _ & Htoks & _).
  assert (sizes_ok (Tokens p)) as Hz'.
  { rewrite Htoks. eapply sizes_ok_same_shape; [|exact Hz].
    apply same_shape_fmap. intros t0. unfold close_token.
    by destruct ((End_ t0 =? -1) && negb (Start t0 =? -1)). }
  apply index_Some in Hj as [Hj0 Hj].
  rewrite (Hz' _ _ Hj). unfold children. by rewrite Z2Nat.id.
Qed.

(** ** Unclosed containers *)

Lemma view_run_example3 : view_run example3 = VDone example3_view.
Proof. vm_compute. reflexivity. Qed.

(** C5: on [{"a":1], with room for its three tokens, [Parse] returns the
    UnclosedContainer error and the count 0; in general, when the dispatch
    loop ends with the container cursor still set, [Parse] normalizes the
    open tokens and then returns that error and the count 0. *)
Theorem unclosed_container (numTokens : Z) :
  3 <= numTokens ->
  (exists p p',
     NewParser numTokens = Some p /\
     Parse example3 p = Return (0, Some UnclosedContainer) p') /\
  (forall json p0 p1,
     Parse_loop (length json) json (mkParser 0 0 (-1) (tokens p0))
       = Return None p1 ->
     toksuper p1 <> -1 ->
     Parse json p0 =
       Return (0, Some UnclosedContainer)
         (set_tokens (close_token (len json) <$> tokens p1) p1)).
Proof.
  intros Hcap. split.
  - destruct (NewParser_Some numTokens) as (p & Hp & Hlen); [lia|].
    pose proof (Parse_of_view example3 p _ view_run_example3) as H.
    rewrite Hlen in H.
    change (len (vtoks example3_view)) with 3 in H.
    destruct (Z.leb_spec 3 numTokens); [|lia].
    destruct H as (p' & HP & _). by exists p, p'.
  - intros json p0 p1 Hloop Hs. rewrite Parse_unfold, Hloop. cbv zeta.
    by destruct (Z.eqb_spec (toksuper p1) (-1)).
Qed.

Lemma unclosed_container_witness :
  3 <= 3 /\
  (exists p p',
     NewParser 3 = Some p /\
     Parse example3 p = Return (0, Some UnclosedContainer) p') /\
  (forall json p0 p1,
     Parse_loop (length json) json (mkParser 0 0 (-1) (tokens p0))
       = Return None p1 ->
     toksuper p1 <> -1 ->
     Parse json p0 =
       Return (0, Some UnclosedContainer)
         (set_tokens (close_token (len json) <$> tokens p1) p1)).
Proof. split; [lia | apply (unclosed_container 3); lia]. Defined.

(** ** Primitive spans *)

Lemma spans_push s tok l :
  spans_ok l ->
  (Type_ tok = Primitive -> 0 <= Start tok < End_ tok) ->
  spans_ok (push s tok l).
Proof.
  intros Hl Htok i t Ht. unfold push in Ht.
  apply lookup_app_Some in Ht as [Ht|[_ Ht]].
  - destruct (s =? -1); [by apply (Hl i)|].
    rewrite list_lookup_alter in Ht.
    destruct (decide (Z.to_nat s = i)); [|by apply (Hl i)].
    destruct (l !! Z.to_nat s) as [t0|] eqn:Ht0; [|done].
    injection Ht as <-. cbn. subst i. by apply (Hl _ _ Ht0).
  - destruct (i - _)%nat; [|done]. by injection Ht as <-.
Qed.

Lemma spans_close e k l :
  spans_ok l ->
  (forall t, l !! k = Some t -> is_container t = true) ->
  spans_ok (alter (set_End e) k l).
Proof.
  intros Hl Hk i t Ht. rewrite list_lookup_alter in Ht.
  destruct (decide (k = i)) as [->|]; [|by apply (Hl i)].
  destruct (l !! i) as [t0|] eqn:Ht0; [|done].
  injection Ht as <-. cbn. intros Hp.
  specialize (Hk t0 eq_refl). unfold is_container in Hk.
  rewrite Hp in Hk. discriminate.
Qed.

Lemma view_step_spans json v :
  vinv v -> 0 <= vpos v < len json -> spans_ok (vtoks v) ->
  match view_step json v with
  | VErr _ => True
  | VKeep v' | VAlloc v' => spans_ok (vtoks v')
  end.
Proof.
  intros Hv Hq Hsp. unfold view_step.
  destruct (rest json (vpos v)) as [|c s]; [done|].
  destruct ((c == "{") || (c == "[")) eqn:E1.
  { cbn. apply spans_push; [done|]. cbn. by destruct (c == "{"). }
  destruct ((c == "}") || (c == "]")) eqn:E2.
  { destruct (Z.eqb_spec (vsuper v) (-1)); cbn; [done|].
    apply spans_close; [done|]. intros t Ht.
    destruct (inv_super v Hv) as [?|(_ & t' & Ht' & Hc)]; congruence. }
  destruct (c == quote) eqn:E3.
  { destruct (closing_quote s); [|done]. cbn. by apply spans_push. }
  destruct ((c == x09) || (c == x0d) || (c == x0a) || (c == " ")) eqn:E4;
    [done|].
  destruct (c == ":") eqn:E5; [done|].
  destruct (c == ",") eqn:E6; [done|].
  cbv zeta.
  destruct (Z.eqb_spec (vpos v + Z.of_nat (primitive_run (c :: s))) (vpos v));
    [done|].
  cbn [vtoks]. apply spans_push; [done|]. cbn [Start End_]. lia.
Qed.

Lemma view_loop_spans fuel json v v' :
  vinv v -> 0 <= vpos v <= len json -> spans_ok (vtoks v) ->
  view_loop fuel json v = VDone v' -> spans_ok (vtoks v').
Proof.
  revert v. induction fuel as [|fuel IH]; intros v Hv Hq Hsp; simpl;
    destruct (Z.ltb_spec (vpos v) (len json)) as [Hlt|Hlt];
    try (intros [=]; fail); try (by intros [= <-]).
  pose proof (view_step_ok json v Hv ltac:(lia)) as Hok.
  pose proof (view_step_spans json v Hv ltac:(lia) Hsp) as Hsp'.
  destruct (view_step json v) as [e|v1|v1]; [intros [=]| |];
    cbn in Hok; destruct Hok as (Hv1 & Hq1 & _);
    apply IH; try done; lia.
Qed.

Lemma spans_run json v : view_run json = VDone v -> spans_ok (vtoks v).
Proof.
  apply view_loop_spans; [apply vinv_init | cbn; unfold len; lia |].
  intros i t [=].
Qed.

(** C10: [Parse] never returns the EmptyPrimitive error, and every Primitive
    token of a successful [Parse] has [End] strictly greater than [Start]. *)
Theorem never_EmptyPrimitive (json : list byte) (p0 p : Parser) (n : Z)
  (err : option error) :
  Parse json p0 = Return (n, err) p ->
  err <> Some EmptyPrimitive /\
  (err = None ->
   forall i t, index (Tokens p) i = Some t -> Type_ t = Primitive ->
               Start t < End_ t).
Proof.
  intros HP. split.
  - pose proof (Parse_view json p0) as H. unfold Parse_matches in H.
    destruct (view_run json) as [e|v|] eqn:Hrun; [| |done].
    + destruct H as (p' & e' & H & He). rewrite HP in H.
      injection H as _ -> _. apply view_loop_err in Hrun as ->.
      destruct He as [->| ->]; discriminate.
    + destruct (len (vtoks v) <=? len (tokens p0)).
      * destruct H as (p' & H & _). rewrite HP in H. injection H as Hr _.
        unfold Parse_result in Hr.
        destruct (vsuper v =? -1); injection Hr as _ ->; discriminate.
      * destruct H as (p' & H). rewrite HP in H. injection H as _ -> _.
        discriminate.
  - intros -> i t Hi Ht.
    apply Parse_success in HP as (v & Hrun & _ & _ & _ & _ & Htoks & _).
    apply index_Some in Hi as [_ Hi]. rewrite Htoks in Hi.
    apply list_lookup_fmap_Some in Hi as (t0 & -> & Ht0).
    assert (Type_ t0 = Primitive) as Ht0'.
    { revert Ht. unfold close_token.
      by destruct ((End_ t0 =? -1) && negb (Start t0 =? -1)). }
    pose proof (spans_run json v Hrun _ _ Ht0 Ht0') as Hsp.
    unfold close_token. destruct (Z.eqb_spec (End_ t0) (-1)); [lia|].
    cbn. lia.
Qed.

(** ** The drivers against a direct call *)

(** C8: below the threshold of 512 bytes, [ParseParallel] has one possible
    result, the token slice and error of a single direct [Parse] of the same
    buffer at the same capacity. *)
Theorem ParseParallel_small (numCPU : positive) (json : list byte)
  (numTokens : Z) :
  len json < 512 ->
  ParseParallel numCPU json numTokens = [direct_Parse json numTokens].
Proof.
  intros Hlen. unfold ParseParallel, direct_Parse.
  destruct (Z.ltb_spec (len json) 512); [|lia].
  destruct (NewParser numTokens) as [p|]; [|done].
  destruct (Parse json p) as [[n [e|]] p'| |] eqn:HP; try done.
  apply Parse_count in HP as ->. done.
Qed.

Lemma ParseParallel_small_witness :
  len example1 < 512 /\
  ParseParallel 4 example1 10 = [direct_Parse example1 10].
Proof.
  split; [vm_compute; reflexivity|].
  apply (ParseParallel_small 4 example1 10). vm_compute. reflexivity.
Defined.

(** C9: [ParseStream] returns the wrapped read error when reading the source
    fails, and otherwise what a direct [Parse] of the bytes read returns at
    the same capacity. *)
Theorem ParseStream_spec (r : Reader) (numTokens : Z) :
  match ReadAll r with
  | (_, Some err) =>
      ParseStream r numTokens = Returned [] (Some (SourceReadError err))
  | (json, None) => ParseStream r numTokens = direct_Parse json numTokens
  end.
Proof.
  unfold ParseStream, direct_Parse.
  destruct (ReadAll r) as [json [err|]]; [done|].
  destruct (NewParser numTokens) as [p|]; [|done].
  destruct (Parse json p) as [[n [e|]] p'| |] eqn:HP; try done.
  apply Parse_count in HP as ->. done.
Qed.

(** ** The string sub-scanner *)

Lemma closing_quote_is_quote_aux n :
  forall s k, (length s <= n)%nat -> closing_quote s = Some k ->
              s !! k = Some quote.
Proof.
  induction n as [|n IH]; intros s k Hn H.
  - destruct s; [discriminate | simpl in Hn; lia].
  - destruct s as [|c s]; [discriminate|]. simpl in *.
    destruct (c == quote) eqn:Eq.
    { injection H as <-. simpl. f_equal. by apply byte_dec_bl. }
    destruct (c == backslash).
    + destruct s as [|c' s]; [discriminate|].
      destruct (closing_quote s) as [k'|] eqn:E; [|discriminate].
      injection H as <-. simpl. apply IH; [simpl in Hn; lia | done].
    + destruct (closing_quote s) as [k'|] eqn:E; [|discriminate].
      injection H as <-. simpl. apply IH; [lia | done].
Qed.

Lemma closing_quote_is_quote s k :
  closing_quote s = Some k -> s !! k = Some quote.
Proof. by apply (closing_quote_is_quote_aux (length s)). Qed.

Lemma allocToken_err tok p e p' :
  allocToken tok p = Return (Some e) p' -> e = Overflow.
Proof.
  unfold allocToken, bind, get, ret, modify, store.
  destruct (toknext p >=? len (tokens p)); [by intros [= <- _]|].
  destruct (index (tokens p) (toknext p)); [|done]. cbn.
  destruct (toksuper p =? -1); [done|].
  by destruct (index _ (toksuper p)).
Qed.

Lemma allocToken_pos tok p r p' :
  allocToken tok p = Return r p' -> pos p' = pos p.
Proof.
  unfold allocToken, bind, get, ret, modify, store.
  destruct (toknext p >=? len (tokens p)); [by intros [= _ <-]|].
  destruct (index (tokens p) (toknext p)); [|done]. cbn.
  destruct (toksuper p =? -1); [by intros [= _ <-]|].
  destruct (index _ (toksuper p)); [|done]. by intros [= _ <-].
Qed.

(** C6: entered at an opening quote, [parseString] looks for the first
    quote that is not the second byte of a backslash pair (pairs are skipped
    whole, uninterpreted).  If there is one, at position [q], the String
    token spanning the bytes strictly between the two quotes goes through the
    allocator and the position moves past [q]; the UnclosedString error is
    returned exactly when there is none. *)
Theorem parseString_spec (json : list byte) (p : Parser) :
  index json (pos p) = Some quote ->
  let start := pos p + 1 in
  match closing_quote (rest json start) with
  | Some k =>
      let q := start + Z.of_nat k in
      index json q = Some quote /\
      parseString json p =
        match allocToken (mkToken String start q 0 (toksuper p))
                (set_pos q p) with
        | Return None p' => Return None (set_pos (q + 1) p')
        | other => other
        end
  | None =>
      parseString json p = Return (Some UnclosedString) (set_pos (len json) p)
  end /\
  ((exists p', parseString json p = Return (Some UnclosedString) p') <->
   closing_quote (rest json start) = None).
Proof.
  intros Hc start.
  apply index_Some in Hc as [Hq Hc].
  pose proof (lookup_lt_Some _ _ _ Hc) as Hlt.
  assert (parseString json p =
            match closing_quote (rest json start) with
            | Some k =>
                finish_string (start + Z.of_nat k)
                  (mkToken String start (-1) 0 (toksuper p))
                  (set_pos (start + Z.of_nat k) p)
            | None => Return (Some UnclosedString) (set_pos (len json) p)
            end) as Hspec.
  { unfold parseString, bind, modify, get.
    rewrite parseString_loop_spec; cbn [pos set_pos toksuper];
      [| unfold len; lia | unfold len; lia].
    fold start. by destruct (closing_quote (rest json start)). }
  destruct (closing_quote (rest json start)) as [k|] eqn:Ek.
  - assert (parseString json p =
              match allocToken
                      (mkToken String start (start + Z.of_nat k) 0 (toksuper p))
                      (set_pos (start + Z.of_nat k) p) with
              | Return None p' =>
                  Return None (set_pos (start + Z.of_nat k + 1) p')
              | other => other
              end) as Hspec'.
    { rewrite Hspec. unfold finish_string, bind, modify, ret, set_End.
      cbn [Type_ Start Size ParentIdx].
      destruct (allocToken _ _) as [[e|] p'| |] eqn:Ha; try done.
      apply allocToken_pos in Ha. by rewrite Ha. }
    split; [split; [|exact Hspec']|].
    + apply closing_quote_is_quote in Ek. unfold rest in Ek.
      rewrite lookup_drop in Ek. apply index_Some. split; [lia|].
      rewrite <- Ek. f_equal. lia.
    + split; [|done]. intros (p' & Hp'). rewrite Hspec' in Hp'.
      destruct (allocToken _ _) as [[e|] p''| |] eqn:Ha; try done.
      apply allocToken_err in Ha as ->. discriminate Hp'.
  - split; [exact Hspec|]. split; [done|]. eauto.
Qed.

Lemma parseString_spec_witness :
  index example_escaped 0 = Some quote /\
  parseString example_escaped (mkParser 0 0 (-1) [zeroToken]) =
    Return None (mkParser 6 1 (-1) [mkToken String 1 5 0 (-1)]).
Proof.
  pose proof (parseString_spec example_escaped
                (mkParser 0 0 (-1) [zeroToken]) eq_refl) as H.
  split; [reflexivity|]. cbv zeta in H. destruct H as [H _].
  change (closing_quote (rest example_escaped (pos (mkParser 0 0 (-1) [zeroToken]) + 1)))
    with (Some 4%nat) in H.
  destruct H as [_ H]. rewrite H. vm_compute. reflexivity.
Defined.

(** ** Instances on example 1 *)

Lemma parent_links_witness :
  Parse example1 example1_parser = Return (8, None) example1_final /\
  index (Tokens example1_final) 5 = Some (mkToken Primitive 25 26 0 4) /\
  4 <> -1 /\
  (4 < 5 /\
   exists tj, index (Tokens example1_final) 4 = Some tj /\
              (Type_ tj = Object \/ Type_ tj = Array)).
Proof.
  assert (Parse example1 example1_parser = Return (8, None) example1_final)
    as H1 by (vm_compute; reflexivity).
  assert (index (Tokens example1_final) 5 = Some (mkToken Primitive 25 26 0 4))
    as H2 by reflexivity.
  assert (4 <> -1) as H3 by lia.
  split; [exact H1|]. split; [exact H2|]. split; [exact H3|].
  exact (parent_links example1 example1_parser example1_final 8 5 4 _
           H1 H2 eq_refl H3).
Defined.

Lemma size_counts_children_witness :
  Parse example1 example1_parser = Return (8, None) example1_final /\
  index (Tokens example1_final) 4 = Some (mkToken Array 24 33 3 0) /\
  Size (mkToken Array 24 33 3 0) =
    len (filter (fun t => ParentIdx t = 4) (Tokens example1_final)).
Proof.
  assert (Parse example1 example1_parser = Return (8, None) example1_final)
    as H1 by (vm_compute; reflexivity).
  assert (index (Tokens example1_final) 4 = Some (mkToken Array 24 33 3 0))
    as H2 by reflexivity.
  split; [exact H1|]. split; [exact H2|].
  exact (size_counts_children example1 example1_parser example1_final 8 4 _
           H1 H2).
Defined.

Lemma never_EmptyPrimitive_witness :
  Parse example1 example1_parser = Return (8, None) example1_final /\
  (None : option error) <> Some EmptyPrimitive /\
  ((None : option error) = None ->
   forall i t, index (Tokens example1_final) i = Some t ->
               Type_ t = Primitive -> Start t < End_ t).
Proof.
  assert (Parse example1 example1_parser = Return (8, None) example1_final)
    as H1 by (vm_compute; reflexivity).
  split; [exact H1|].
  exact (never_EmptyPrimitive example1 example1_parser example1_final 8 None
           H1).
Defined.

(** ** The colon *)

Lemma Parse_body_colon json p :
  index json (pos p) = Some ":"%byte ->
  Parse_body json p = Return None (set_pos (pos p + 1) p).
Proof. intros H. by rewrite (Parse_body_at _ _ _ H). Qed.

Lemma Parse_body_blank json p c :
  index json (pos p) = Some c -> is_blank c = true ->
  Parse_body json p = Return None (set_pos (pos p + 1) p).
Proof.
  intros H Hc. rewrite (Parse_body_at _ _ _ H). unfold is_blank in Hc.
  repeat (apply orb_true_iff in Hc as [Hc|Hc]);
    apply byte_dec_bl in Hc; by subst c.
Qed.

Lemma skip_blanks_inv json p p' :
  skip_blanks json p p' ->
  toknext p' = toknext p /\ toksuper p' = toksuper p /\ tokens p' = tokens p.
Proof.
  induction 1 as [p|p c p1 p' Hc Hb Hbody _ IH]; [done|].
  rewrite (Parse_body_blank _ _ _ Hc Hb) in Hbody. injection Hbody as <-.
  exact IH.
Qed.

Lemma Parse_body_in_range json p r p' :
  Parse_body json p = Return r p' -> 0 <= pos p < len json.
Proof.
  unfold Parse_body, bind, byte_at.
  destruct (index json (pos p)) as [c|] eqn:Hc; [|done]. intros _.
  apply index_Some in Hc as [? Hc]. apply lookup_lt_Some in Hc.
  unfold len. lia.
Qed.

Lemma view_step_alloc json v v' :
  view_step json v = VAlloc v' ->
  exists tok, vtoks v' = push (vsuper v) tok (vtoks v) /\
              ParentIdx tok = vsuper v.
Proof.
  unfold view_step. destruct (rest json (vpos v)) as [|c s]; [done|].
  destruct ((c == "{") || (c == "[")); [intros [= <-]; cbn; eauto|].
  destruct ((c == "}") || (c == "]")); [done|].
  destruct (c == quote).
  { destruct (closing_quote s); [|done]. intros [= <-]. cbn. eauto. }
  destruct ((c == x09) || (c == x0d) || (c == x0a) || (c == " ")); [done|].
  destruct (c == ":"); [done|].
  destruct (c == ","); [done|].
  cbv zeta. destruct (_ =? _); [done|]. intros [= <-]. cbn. eauto.
Qed.

(** An iteration that allocates gives the new token the cursor it started
    with as parent. *)
Lemma Parse_body_alloc json q q' :
  bounded q ->
  Parse_body json q = Return None q' ->
  toknext q' = toknext q + 1 ->
  exists tok, Tokens q' = push (toksuper q) tok (Tokens q) /\
              ParentIdx tok = toksuper q.
Proof.
  intros Hb Hbody Hnext.
  pose proof (Parse_body_in_range _ _ _ _ Hbody) as Hq.
  pose proof (Parse_body_view json q Hb Hq) as Hm.
  destruct (view_step json (view_of q)) as [e|v1|v1] eqn:Hstep; cbn in Hm.
  - destruct Hm as (p' & Hm). congruence.
  - destruct Hm as (p' & Hm & _ & Hn & _). rewrite Hbody in Hm.
    injection Hm as <-. lia.
  - destruct (toknext q <? len (tokens q)).
    + destruct Hm as (p' & Hm & Hview & _). rewrite Hbody in Hm.
      injection Hm as <-. apply view_step_alloc in Hstep as (tok & Ht & Hp).
      exists tok. split; [|done]. by rewrite <- Hview in Ht.
    + destruct Hm as (p' & Hm). congruence.
Qed.

(** An iteration entered at a quote that does not fail allocates a String
    token under the current cursor and leaves the cursor alone. *)
Lemma Parse_body_string json q q' :
  bounded q ->
  index json (pos q) = Some quote ->
  Parse_body json q = Return None q' ->
  exists tok, Tokens q' = push (toksuper q) tok (Tokens q) /\
              Type_ tok = String /\ ParentIdx tok = toksuper q /\
              toksuper q' = toksuper q /\ bounded q'.
Proof.
  intros Hb Hc Hbody.
  pose proof (Parse_body_in_range _ _ _ _ Hbody) as Hq.
  pose proof (Parse_body_view json q Hb Hq) as Hm.
  destruct (rest_cons json (pos q) Hq) as (c & Hc' & Hr).
  rewrite Hc in Hc'. injection Hc' as <-.
  unfold view_step in Hm. cbn [view_of vpos vsuper vtoks] in Hm.
  rewrite Hr in Hm. cbn [Byte.eqb orb] in Hm.
  change (quote == "{") with false in Hm.
  change (quote == "[") with false in Hm.
  change (quote == "}") with false in Hm.
  change (quote == "]") with false in Hm.
  change (quote == quote) with true in Hm. cbn [orb] in Hm.
  destruct (closing_quote (rest json (pos q + 1))) as [k|]; cbn in Hm.
  - destruct (Z.ltb_spec (toknext q) (len (tokens q))).
    + destruct Hm as (p' & Hm & Hview & Hnext & Hlen). rewrite Hbody in Hm.
      injection Hm as <-. injection Hview as Hpos Hsup Htoks.
      eexists. split; [exact Htoks|].
      split; [done|]. split; [done|]. split; [done|]. split.
      * rewrite Hnext, Hlen. destruct Hb. lia.
      * rewrite Hsup, Hnext. destruct Hb as [_ [?|?]]; [by left | right; lia].
    + destruct Hm as (p' & Hm). congruence.
  - destruct Hm as (p' & Hm). congruence.
Qed.

(** C2: at a ':' the dispatch loop moves the position one byte on and
    changes nothing else.  So, when the iteration entered at the opening
    quote of a key ends on that ':', and the blanks after it are followed by
    an iteration that allocates the value, the key token and the value token
    both have the cursor of the key, the enclosing object, as [ParentIdx]. *)
Theorem colon_keeps_cursor (json : list byte) (p : Parser) :
  index json (pos p) = Some ":"%byte ->
  Parse_body json p = Return None (set_pos (pos p + 1) p) /\
  (forall p0 p2 p3,
     bounded p0 ->
     index json (pos p0) = Some quote ->
     Parse_body json p0 = Return None p ->
     skip_blanks json (set_pos (pos p + 1) p) p2 ->
     Parse_body json p2 = Return None p3 ->
     toknext p3 = toknext p2 + 1 ->
     exists k v,
       Tokens p3 = push (toksuper p0) v (push (toksuper p0) k (Tokens p0)) /\
       Type_ k = String /\
       ParentIdx k = toksuper p0 /\ ParentIdx v = toksuper p0).
Proof.
  intros Hc. split; [by apply Parse_body_colon|].
  intros p0 p2 p3 Hb0 Hq0 Hkey Hskip Hval Hnext.
  destruct (Parse_body_string json p0 p Hb0 Hq0 Hkey)
    as (k & Hk & Hty & Hpk & Hsup & Hb).
  apply skip_blanks_inv in Hskip as (Hn2 & Hs2 & Ht2). cbn in Hn2, Hs2, Ht2.
  assert (bounded p2) as Hb2.
  { unfold bounded. rewrite Hn2, Hs2, Ht2. exact Hb. }
  destruct (Parse_body_alloc json p2 p3 Hb2 Hval Hnext) as (v & Hv & Hpv).
  exists k, v. rewrite Hs2, Hsup in Hv, Hpv.
  assert (Tokens p2 = Tokens p) as Htoks.
  { unfold Tokens. by rewrite Hn2, Ht2. }
  rewrite Htoks, Hk in Hv. done.
Qed.

Lemma colon_keeps_cursor_witness :
  index example1 (pos (example1_at 2)) = Some ":"%byte /\
  Parse_body example1 (example1_at 2) =
    Return None (set_pos (pos (example1_at 2) + 1) (example1_at 2)) /\
  exists k v,
    Tokens (example1_at 5) =
      push 0 v (push 0 k (Tokens (example1_at 1))) /\
    Type_ k = String /\ ParentIdx k = 0 /\ ParentIdx v = 0.
Proof.
  assert (index example1 (pos (example1_at 2)) = Some ":"%byte) as Hc
    by reflexivity.
  destruct (colon_keeps_cursor example1 (example1_at 2) Hc) as [H1 H2].
  split; [exact Hc|]. split; [exact H1|].
  apply (H2 (example1_at 1) (example1_at 4) (example1_at 5)).
  - split; [vm_compute; split; discriminate | right; vm_compute; by split].
  - reflexivity.
  - vm_compute. reflexivity.
  - eapply (skip_more _ _ " "%byte);
      [reflexivity | reflexivity | vm_compute; reflexivity |].
    apply skip_done.
  - vm_compute. reflexivity.
  - reflexivity.
Defined.

(** ** The earlier revision, for comparison *)

(** There, a ':' makes the token allocated last the current container. *)
Lemma legacy_colon_moves_cursor json p :
  index json (pos p) = Some ":"%byte ->
  Legacy.Parse_body json p =
    Return None (set_pos (pos p + 1) (set_toksuper (toknext p - 1) p)).
Proof.
  intros H. unfold Legacy.Parse_body, bind, byte_at. by rewrite H.
Qed.

(** There, on example 1, "value" is a child of "key", the array a child of
    "arr", and the closing brace closes "arr" instead of the object. *)
Lemma legacy_example1 :
  Legacy.direct_Parse example1 8 =
    Returned
      [ mkToken Object 0 34 2 (-1);
        mkToken String 2 5 1 0;
        mkToken String 9 14 0 1;
        mkToken String 18 34 1 0;
        mkToken Array 24 33 3 3;
        mkToken Primitive 25 26 0 4;
        mkToken Primitive 28 29 0 4;
        mkToken Primitive 31 32 0 4 ] None.
Proof. vm_compute. reflexivity. Qed.

(** There, an array that is too small makes the allocator panic with an
    index out of range. *)
Lemma legacy_overflow_panics : Legacy.direct_Parse example1 7 = Panicked.
Proof. vm_compute. reflexivity. Qed.

(** There, a container left open is closed silently at the end of input. *)
Lemma legacy_unclosed_accepted :
  Legacy.direct_Parse example3 3 =
    Returned
      [ mkToken Object 0 6 1 (-1);
        mkToken String 2 3 1 0;
        mkToken Primitive 5 6 0 1 ] None.
Proof. vm_compute. reflexivity. Qed.

(** There, example 1 split over four workers with capacity 10 in all gives
    the last worker two slots for four tokens, and it panics. *)
Lemma legacy_ParseParallel_panics :
  Legacy.ParseParallel 4 example1 10 = [Panicked].
Proof. vm_compute. reflexivity. Qed.

(** ** The forms of an iteration *)

Lemma comma_super_id s l :
  parent_ok l (len l) s -> comma_super s l = s.
Proof.
  intros [->|(_ & t & Ht & Hc)]; [done|]. unfold comma_super.
  destruct (s =? -1); [done|]. by rewrite Ht, Hc.
Qed.

Lemma view_step_shape json v :
  vinv v -> 0 <= vpos v < len json -> step_shape json v (view_step json v).
Proof.
  intros Hv Hq. destruct (rest_cons json (vpos v) Hq) as (c & Hc & Hr).
  unfold view_step. rewrite Hr.
  destruct ((c == "{") || (c == "[")) eqn:E1.
  { destruct (c == "{") eqn:E; [|cbn in E1].
    - apply byte_dec_bl in E. eapply shape_open; [exact Hc|]. by left.
    - apply byte_dec_bl in E1. eapply shape_open; [exact Hc|]. by right. }
  destruct ((c == "}") || (c == "]")) eqn:E2.
  { destruct (Z.eqb_spec (vsuper v) (-1)); [apply shape_skip|].
    by eapply shape_close. }
  destruct (c == quote) eqn:E3.
  { apply byte_dec_bl in E3. subst c.
    destruct (closing_quote (rest json (vpos v + 1))) as [k|] eqn:Ek;
      [by apply shape_string | apply shape_error]. }
  destruct ((c == x09) || (c == x0d) || (c == x0a) || (c == " ")) eqn:E4;
    [apply shape_skip|].
  destruct (c == ":") eqn:E5; [apply shape_skip|].
  destruct (c == ",") eqn:E6.
  { rewrite comma_super_id by apply (inv_super v Hv). apply shape_skip. }
  cbv zeta.
  destruct (Z.eqb_spec (vpos v + Z.of_nat (primitive_run (c :: rest json (vpos v + 1)))) (vpos v));
    [apply shape_error|].
  apply shape_primitive; [by rewrite Hr | lia].
Qed.

(** ** Allocation and closing on size-erased tokens *)

Lemma unsized_push s tok (l : list Token) :
  unsized <$> push s tok l = (unsized <$> l) ++ [unsized tok].
Proof.
  unfold push. rewrite fmap_app. f_equal.
  destruct (s =? -1); [done|].
  apply list_eq. intros i. rewrite !list_lookup_fmap, list_lookup_alter.
  destruct (decide (Z.to_nat s = i)) as [<-|]; [|done].
  by destruct (l !! Z.to_nat s).
Qed.

Lemma unsized_close e (k : nat) (l : list Token) :
  unsized <$> alter (set_End e) k l = alter (set_End e) k (unsized <$> l).
Proof. apply list_fmap_alter, Forall_forall. by intros. Qed.

Lemma parent_at_unsized s (l : list Token) : parent_at s (unsized <$> l) = parent_at s l.
Proof.
  unfold parent_at. rewrite list_lookup_fmap. by destruct (l !! Z.to_nat s).
Qed.

Lemma lookup_snoc_inv {A} (L : list A) x i t :
  (L ++ [x]) !! i = Some t ->
  (L !! i = Some t /\ (i < length L)%nat) \/ (i = length L /\ t = x).
Proof.
  intros H. apply lookup_app_Some in H as [H|[Hi H]].
  - left. split; [done|]. by eapply lookup_lt_Some.
  - right. destruct (i - length L)%nat eqn:E; [|done].
    injection H as <-. split; [lia | done].
Qed.

Lemma lookup_close_inv e k (L : list Token) i t :
  alter (set_End e) k L !! i = Some t ->
  exists t0, L !! i = Some t0 /\
             ((i <> k /\ t = t0) \/ (i = k /\ t = set_End e t0)).
Proof.
  rewrite list_lookup_alter. destruct (decide (k = i)) as [->|].
  - destruct (L !! i) as [t0|]; [|done]. intros [= <-]. eauto.
  - intros H. exists t. eauto.
Qed.

Lemma span_ok_mono q q' t : q <= q' -> span_ok q t -> span_ok q' t.
Proof.
  intros Hq [Hs [He|[He Hne]]]; (split; [lia|]); [by left | right].
  split; [lia | done].
Qed.

Lemma winv_skip json q q' s L : q <= q' -> winv json q s L -> winv json q' s L.
Proof.
  intros Hq [H1 H2 H3 H4 H5 H6 H7 H8 H9 H10]. constructor; try done.
  - lia.
  - intros i t Ht. eapply span_ok_mono; [done | by eapply H2].
Qed.

Lemma winv_alloc json q q' s s' L tok :
  winv json q s L -> q < q' ->
  ParentIdx tok = s -> q <= Start tok ->
  span_ok q' tok -> tok_text json tok ->
  (s' = s /\ End_ tok <> -1) \/ (s' = len L /\ End_ tok = -1) ->
  winv json q' s' (L ++ [tok]).
Proof.
  intros [H1 H2 H3 H4 H5 H6 H7 H8 H9 H10] Hq Hp Hst Hsp Htx Hs'.
  assert (s = -1 \/ 0 <= s < len L) as Hs.
  { destruct H6 as [?|(? & t & Ht & _)]; [by left | right].
    apply lookup_lt_Some in Ht. unfold len. lia. }
  assert (len (L ++ [tok]) = len L + 1) as Hlen.
  { unfold len. rewrite length_app. simpl. lia. }
  assert ((L ++ [tok]) !! length L = Some tok) as Hnew.
  { by apply list_lookup_middle. }
  unfold len in *. constructor.
  - unfold len. lia.
  - intros i t Ht. apply lookup_snoc_inv in Ht as [[Ht _]|[_ ->]]; [|done].
    eapply span_ok_mono; [|by eapply H2]. lia.
  - intros i t Ht. apply lookup_snoc_inv in Ht as [[Ht _]|[_ ->]]; [|done].
    by eapply H3.
  - intros i t Ht. apply lookup_snoc_inv in Ht as [[Ht _]|[-> ->]].
    + by eapply H4.
    + rewrite Hp. destruct Hs; [by left | right; lia].
  - intros i j ti tj Hi Hj Hij.
    apply lookup_snoc_inv in Hi as [[Hi Hil]|[-> ->]];
      apply lookup_snoc_inv in Hj as [[Hj Hjl]|[-> ->]]; try lia.
    + by eapply H5.
    + destruct (H2 _ _ Hi) as [? _]. lia.
  - destruct Hs' as [[-> He]|[-> He]].
    + destruct H6 as [?|(? & t & Ht & Hopen)]; [by left | right].
      split; [done|]. exists t. split; [|done]. by apply lookup_app_l_Some.
    + right. split; [lia|]. exists tok. by rewrite Nat2Z.id.
  - intros i t Ht Hopen.
    apply lookup_snoc_inv in Ht as [[Ht Hil]|[-> ->]].
    + specialize (H7 _ _ Ht Hopen). destruct Hs' as [[-> _]|[-> _]]; lia.
    + destruct Hs' as [[_ He]|[-> _]]; [done | lia].
  - intros k tk i ti Hk Hi Hopen Hik.
    apply lookup_snoc_inv in Hk as [[Hk Hkl]|[-> ->]];
      apply lookup_snoc_inv in Hi as [[Hi Hil]|[-> ->]]; try lia.
    + by eapply H8.
    + rewrite Hp. by eapply H7.
  - intros i t Ht Hopen.
    apply lookup_snoc_inv in Ht as [[Ht Hil]|[-> ->]].
    + destruct (H9 _ _ Ht Hopen) as [?|(tp & Htp & ?)]; [by left | right].
      exists tp. split; [|done]. by apply lookup_app_l_Some.
    + rewrite Hp. destruct H6 as [?|(? & t & Ht & ?)]; [by left | right].
      exists t. split; [|done]. by apply lookup_app_l_Some.
  - intros i t tp Ht Hne Htp.
    apply lookup_snoc_inv in Ht as [[Ht Hil]|[-> ->]].
    + destruct (H4 _ _ Ht) as [?|?]; [done|].
      rewrite lookup_app_l in Htp by lia. by eapply H10.
    + rewrite Hp in *. destruct H6 as [?|(? & t & Ht & ?)]; [done|].
      destruct Hs as [?|?]; [done|].
      rewrite lookup_app_l in Htp by lia. left. congruence.
Qed.

Lemma winv_close json q s L c :
  winv json q s L -> s <> -1 ->
  index json q = Some c -> is_closer c = true ->
  winv json (q + 1) (parent_at s L) (alter (set_End (q + 1)) (Z.to_nat s) L).
Proof.
  intros [H1 H2 H3 H4 H5 H6 H7 H8 H9 H10] Hs Hc Hcl.
  destruct H6 as [?|(Hs0 & ts & Hts & Hopen)]; [done|].
  pose proof (H2 _ _ Hts) as [Hst Hsp].
  assert (is_container ts = true) as Hcont.
  { destruct Hsp as [[_ ?]|[? _]]; [done | lia]. }
  assert (parent_at s L = ParentIdx ts) as Hpar.
  { unfold parent_at. by rewrite Hts. }
  assert (forall i : nat, i = Z.to_nat s <-> Z.of_nat i = s) as Hnat by lia.
  rewrite Hpar. constructor.
  - rewrite len_alter. lia.
  - intros i t Ht.
    apply lookup_close_inv in Ht as (t0 & Ht0 & [[_ ->]|[-> ->]]).
    + eapply span_ok_mono; [|by eapply H2]. lia.
    + rewrite Hts in Ht0. injection Ht0 as <-.
      split; [cbn; lia|]. right. cbn. lia.
  - intros i t Ht.
    apply lookup_close_inv in Ht as (t0 & Ht0 & [[_ ->]|[-> ->]]).
    + by eapply H3.
    + rewrite Hts in Ht0. injection Ht0 as <-.
      pose proof (H3 _ _ Hts) as Htx. unfold tok_text, is_container in *.
      cbn. replace (q + 1 - 1) with q by lia.
      destruct (Type_ ts); try done; destruct Htx as [? _]; eauto.
  - intros i t Ht.
    apply lookup_close_inv in Ht as (t0 & Ht0 & [[_ ->]|[-> ->]]);
      [by eapply H4 | unfold set_End; cbn [ParentIdx]; by eapply H4].
  - intros i j ti tj Hi Hj Hij.
    apply lookup_close_inv in Hi as (ti0 & Hi0 & Hi).
    apply lookup_close_inv in Hj as (tj0 & Hj0 & Hj).
    replace (Start ti) with (Start ti0)
      by (by destruct Hi as [[_ ->]|[_ ->]]).
    replace (Start tj) with (Start tj0)
      by (by destruct Hj as [[_ ->]|[_ ->]]).
    by eapply H5.
  - destruct (H4 _ _ Hts) as [?|?]; [by left|].
    destruct (H9 _ _ Hts Hopen) as [?|(tp & Htp & Hpo)]; [by left | right].
    split; [lia|]. exists tp. split; [|done].
    rewrite list_lookup_alter_ne by lia. done.
  - intros i t Ht He.
    apply lookup_close_inv in Ht as (t0 & Ht0 & [[Hne ->]|[-> ->]]).
    + pose proof (H7 _ _ Ht0 He).
      assert (i < Z.to_nat s)%nat by lia.
      by eapply (H8 (Z.to_nat s) ts i t0).
    + cbn in He. lia.
  - intros k tk i ti Hk Hi He Hik.
    apply lookup_close_inv in Hi as (ti0 & Hi0 & [[Hne ->]|[-> ->]]);
      [|cbn in He; lia].
    apply lookup_close_inv in Hk as (tk0 & Hk0 & Hk).
    replace (ParentIdx tk) with (ParentIdx tk0)
      by (by destruct Hk as [[_ ->]|[_ ->]]).
    by eapply H8.
  - intros i t Ht He.
    apply lookup_close_inv in Ht as (t0 & Ht0 & [[Hne ->]|[-> ->]]);
      [|cbn in He; lia].
    destruct (H4 _ _ Ht0) as [?|?]; [by left|].
    destruct (H9 _ _ Ht0 He) as [?|(tp & Htp & Hpo)]; [by left | right].
    exists tp. split; [|done].
    rewrite list_lookup_alter_ne; [done|].
    pose proof (H7 _ _ Ht0 He). lia.
  - intros i t tp Ht Hne Htp.
    apply lookup_close_inv in Ht as (t0 & Ht0 & Ht).
    apply lookup_close_inv in Htp as (tp0 & Htp0 & Htp).
    assert (ParentIdx t = ParentIdx t0) as Hpe
      by (by destruct Ht as [[_ ->]|[_ ->]]).
    rewrite Hpe in *.
    destruct Htp as [[Hnp ->]|[Hp ->]].
    + destruct Ht as [[_ ->]|[-> ->]]; [by eapply H10|].
      rewrite Hts in Ht0. injection Ht0 as <-.
      destruct (H9 _ _ Hts Hopen) as [?|(tp & Htp & Hpo)]; [done|].
      left. congruence.
    + right. cbn.
      destruct (H4 _ _ Ht0) as [?|?]; [done|].
      destruct Ht as [[_ ->]|[-> _]]; [|lia].
      assert (End_ t0 <> -1) as Hcl0.
      { intros He. pose proof (H7 _ _ Ht0 He). lia. }
      split; [done|].
      destruct (H2 _ _ Ht0) as [_ [[? _]|[? _]]]; [done | lia].
Qed.

(** ** What the sub-scanners leave in and around a span *)

Lemma closing_quote_take_aux n :
  forall s k, (length s <= n)%nat -> closing_quote s = Some k ->
              closing_quote (take k s) = None.
Proof.
  induction n as [|n IH]; intros s k Hn H.
  - destruct s; [discriminate | simpl in Hn; lia].
  - destruct s as [|c s]; [discriminate|]. simpl in H.
    destruct (c == quote) eqn:Eq; [by injection H as <-|].
    destruct (c == backslash) eqn:Eb.
    + destruct s as [|c' s]; [discriminate|].
      destruct (closing_quote s) as [k'|] eqn:E; [|discriminate].
      injection H as <-. simpl. rewrite Eq, Eb.
      rewrite (IH s k'); [done | simpl in Hn; lia | done].
    + destruct (closing_quote s) as [k'|] eqn:E; [|discriminate].
      injection H as <-. simpl. rewrite Eq, Eb.
      rewrite (IH s k'); [done | simpl in Hn; lia | done].
Qed.

Lemma closing_quote_take s k :
  closing_quote s = Some k -> closing_quote (take k s) = None.
Proof. by apply (closing_quote_take_aux (length s)). Qed.

Lemma primitive_run_take s :
  Forall (fun c => is_delimiter c = false) (take (primitive_run s) s).
Proof.
  induction s as [|c s IH]; simpl; [constructor|].
  destruct (is_delimiter c) eqn:E; simpl; by constructor.
Qed.

Lemma primitive_run_stop s :
  s !! primitive_run s = None \/
  exists c, s !! primitive_run s = Some c /\ is_delimiter c = true.
Proof.
  induction s as [|c s IH]; simpl; [by left|].
  destruct (is_delimiter c) eqn:E; simpl; [right; eauto | done].
Qed.

Lemma slice_rest json a (k : nat) :
  slice json a (a + Z.of_nat k) = take k (rest json a).
Proof. unfold slice, rest. f_equal. lia. Qed.

Lemma index_rest json a (k : nat) c :
  0 <= a -> rest json a !! k = Some c -> index json (a + Z.of_nat k) = Some c.
Proof.
  intros Ha H. unfold rest in H. rewrite lookup_drop in H.
  apply index_Some. split; [lia|]. rewrite <- H. f_equal. lia.
Qed.

(** ** The wide invariant along the dispatch loop *)

Lemma wide_step json v :
  vinv v -> 0 <= vpos v < len json -> wide json v ->
  match view_step json v with
  | VErr _ => True
  | VKeep v' | VAlloc v' => wide json v'
  end.
Proof.
  intros Hv Hq Hw. unfold wide in *.
  destruct (view_step_shape json v Hv Hq)
    as [c ty Hc Hty|c Hc Hcl Hs| |k Hc Hk|k Hk Hpos|e]; cbn [vpos vsuper vtoks];
    try done.
  - rewrite unsized_push. eapply winv_alloc; [exact Hw | lia | ..];
      unfold span_ok, tok_text, is_container, unsized;
      cbn [ParentIdx Start End_ Type_].
    + done.
    + lia.
    + split; [lia|]. left. split; [done|].
      by destruct Hty as [[_ ->]|[_ ->]].
    + destruct Hty as [[-> ->]|[-> ->]]; split; auto.
    + right. by rewrite len_fmap.
  - rewrite unsized_close, <- parent_at_unsized. by eapply winv_close.
  - eapply winv_skip; [|exact Hw]. lia.
  - rewrite unsized_push. eapply winv_alloc; [exact Hw | lia | ..];
      unfold span_ok, tok_text, is_container, unsized;
      cbn [ParentIdx Start End_ Type_].
    + done.
    + lia.
    + split; [lia|]. right. split; [lia | done].
    + replace (vpos v + 1 - 1) with (vpos v) by lia.
      split; [done|]. split.
      * apply (index_rest json (vpos v + 1) k); [lia|].
        by apply closing_quote_is_quote.
      * rewrite slice_rest. by apply closing_quote_take.
    + left. split; [done | lia].
  - rewrite unsized_push. eapply winv_alloc; [exact Hw | lia | ..];
      unfold span_ok, tok_text, is_container, unsized;
      cbn [ParentIdx Start End_ Type_].
    + done.
    + lia.
    + split; [lia|]. right. split; [lia|]. intros _. lia.
    + rewrite slice_rest, Hk. split.
      * apply primitive_run_take.
      * destruct (primitive_run_stop (rest json (vpos v))) as [H|(c & H & Hd)].
        -- left. apply lookup_ge_None in H.
           pose proof (primitive_run_le (rest json (vpos v))).
           pose proof (length_rest json (vpos v)). lia.
        -- right. exists c. split; [|done].
           by apply (index_rest json (vpos v)); [lia|].
    + left. split; [done | lia].
Qed.

Lemma wide_loop fuel json v v' :
  vinv v -> 0 <= vpos v <= len json -> wide json v ->
  view_loop fuel json v = VDone v' -> wide json v'.
Proof.
  revert v. induction fuel as [|fuel IH]; intros v Hv Hq Hw; simpl;
    destruct (Z.ltb_spec (vpos v) (len json)) as [Hlt|Hlt];
    try (intros [=]; fail); try (by intros [= <-]).
  pose proof (view_step_ok json v Hv ltac:(lia)) as Hok.
  pose proof (wide_step json v Hv ltac:(lia) Hw) as Hw'.
  destruct (view_step json v) as [e|v1|v1]; [intros [=]| |];
    cbn in Hok; destruct Hok as (Hv1 & Hq1 & _);
    apply IH; try done; lia.
Qed.

Lemma wide_init json : wide json view_init.
Proof.
  constructor; cbn; try (by intros); try done. by left.
Qed.

Lemma wide_run json v : view_run json = VDone v -> wide json v.
Proof.
  apply wide_loop; [apply vinv_init | cbn; unfold len; lia | apply wide_init].
Qed.

(** A successful [Parse] hands back the tokens as the dispatch loop left
    them: with the cursor back at -1 no token is open, and the final pass
    over the array has nothing to close. *)
Lemma Parse_success_tokens json p0 n p :
  Parse json p0 = Return (n, None) p ->
  exists v, view_run json = VDone v /\ wide json v /\ vsuper v = -1 /\
            vpos v = len json /\ Tokens p = vtoks v /\ n = len (vtoks v).
Proof.
  intros HP.
  apply Parse_success in HP as (v & Hrun & Hv & Hs & -> & _ & Htoks & _).
  pose proof (wide_run json v Hrun) as Hw.
  exists v. split; [done|]. split; [done|]. split; [done|].
  split; [|split; [|done]].
  - apply view_loop_done in Hrun as (_ & ? & _);
      [done | apply vinv_init | cbn; unfold len; lia].
  - rewrite Htoks. apply list_eq. intros i. rewrite list_lookup_fmap.
    destruct (vtoks v !! i) as [t|] eqn:Ht; [|done]. cbn. f_equal.
    unfold close_token. destruct (Z.eqb_spec (End_ t) (-1)) as [He|]; [|done].
    assert ((unsized <$> vtoks v) !! i = Some (unsized t)) as Hi.
    { by rewrite list_lookup_fmap, Ht. }
    pose proof (w_open _ _ _ _ Hw i (unsized t) Hi He). lia.
Qed.

Lemma Parse_token json p0 n p i t :
  Parse json p0 = Return (n, None) p ->
  index (Tokens p) i = Some t ->
  exists v, wide json v /\ vsuper v = -1 /\ vpos v = len json /\ 0 <= i /\
            (unsized <$> vtoks v) !! Z.to_nat i = Some (unsized t).
Proof.
  intros HP Hi.
  apply Parse_success_tokens in HP as (v & _ & Hw & Hs & Hq & Htoks & _).
  apply index_Some in Hi as [Hi0 Hi]. rewrite Htoks in Hi.
  exists v. repeat (split; [done|]). by rewrite list_lookup_fmap, Hi.
Qed.

(** ** Spans of the tokens of a successful scan *)

(** X1: every token of a successful [Parse] spans a range of the buffer,
    [0 <= Start <= End <= len(json)], which is not empty unless the token is
    a String. *)
Theorem span_bounds (json : list byte) (p0 p : Parser) (n i : Z) (t : Token) :
  Parse json p0 = Return (n, None) p ->
  index (Tokens p) i = Some t ->
  0 <= Start t <= End_ t /\ End_ t <= len json /\
  (Type_ t <> String -> Start t < End_ t).
Proof.
  intros HP Hi.
  destruct (Parse_token _ _ _ _ _ _ HP Hi) as (v & Hw & Hs & Hq & Hi0 & Ht).
  destruct (w_span _ _ _ _ Hw _ _ Ht) as [Hst [[He _]|[He Hne]]]; cbn in *.
  - pose proof (w_open _ _ _ _ Hw _ _ Ht He). lia.
  - repeat split; try lia. done.
Qed.

Lemma span_bounds_witness :
  Parse example1 example1_parser = Return (8, None) example1_final /\
  index (Tokens example1_final) 2 = Some (mkToken String 9 14 0 0) /\
  0 <= 9 <= 14 /\ 14 <= len example1 /\
  (String <> String -> 9 < 14).
Proof.
  assert (Parse example1 example1_parser = Return (8, None) example1_final)
    as H1 by (vm_compute; reflexivity).
  assert (index (Tokens example1_final) 2 = Some (mkToken String 9 14 0 0))
    as H2 by reflexivity.
  split; [exact H1|]. split; [exact H2|].
  exact (span_bounds example1 example1_parser example1_final 8 2 _ H1 H2).
Defined.

(** X2: the tokens of a successful [Parse] come in the order in which their
    spans begin: [Start] grows strictly with the index. *)
Theorem start_order (json : list byte) (p0 p : Parser) (n i j : Z)
  (ti tj : Token) :
  Parse json p0 = Return (n, None) p ->
  index (Tokens p) i = Some ti ->
  index (Tokens p) j = Some tj ->
  i < j ->
  Start ti < Start tj.
Proof.
  intros HP Hi Hj Hij.
  apply Parse_success_tokens in HP as (v & _ & Hw & _ & _ & Htoks & _).
  apply index_Some in Hi as [Hi0 Hi]. apply index_Some in Hj as [Hj0 Hj].
  rewrite Htoks in Hi, Hj.
  apply (w_order _ _ _ _ Hw (Z.to_nat i) (Z.to_nat j) (unsized ti) (unsized tj));
    [by rewrite list_lookup_fmap, Hi | by rewrite list_lookup_fmap, Hj | lia].
Qed.

Lemma start_order_witness :
  Parse example1 example1_parser = Return (8, None) example1_final /\
  index (Tokens example1_final) 3 = Some (mkToken String 18 21 0 0) /\
  index (Tokens example1_final) 4 = Some (mkToken Array 24 33 3 0) /\
  3 < 4 /\ 18 < 24.
Proof.
  assert (Parse example1 example1_parser = Return (8, None) example1_final)
    as H1 by (vm_compute; reflexivity).
  assert (index (Tokens example1_final) 3 = Some (mkToken String 18 21 0 0))
    as H2 by reflexivity.
  assert (index (Tokens example1_final) 4 = Some (mkToken Array 24 33 3 0))
    as H3 by reflexivity.
  assert (3 < 4) as H4 by lia.
  split; [exact H1|]. split; [exact H2|]. split; [exact H3|].
  split; [exact H4|].
  exact (start_order example1 example1_parser example1_final 8 3 4 _ _
           H1 H2 H3 H4).
Defined.

(** X3: after a successful [Parse], the span of a token lies strictly inside
    the span of its parent: the parent starts before it and ends after
    it. *)
Theorem child_inside_parent (json : list byte) (p0 p : Parser) (n i j : Z)
  (t tj : Token) :
  Parse json p0 = Return (n, None) p ->
  index (Tokens p) i = Some t ->
  ParentIdx t = j ->
  j <> -1 ->
  index (Tokens p) j = Some tj ->
  Start tj < Start t /\ End_ t < End_ tj.
Proof.
  intros HP Hi Hp Hne Hj.
  apply Parse_success_tokens in HP as (v & _ & Hw & Hs & _ & Htoks & _).
  apply index_Some in Hi as [Hi0 Hi]. apply index_Some in Hj as [Hj0 Hj].
  rewrite Htoks in Hi, Hj.
  assert ((unsized <$> vtoks v) !! Z.to_nat i = Some (unsized t)) as Ht
    by (by rewrite list_lookup_fmap, Hi).
  assert ((unsized <$> vtoks v) !! Z.to_nat j = Some (unsized tj)) as Htj
    by (by rewrite list_lookup_fmap, Hj).
  subst j.
  destruct (w_links _ _ _ _ Hw _ _ Ht) as [?|Hlt]; [done|]. cbn in Hlt.
  split.
  - apply (w_order _ _ _ _ Hw (Z.to_nat (ParentIdx t)) (Z.to_nat i)
             (unsized tj) (unsized t)); [done | done | lia].
  - destruct (w_nest _ _ _ _ Hw _ _ _ Ht Hne Htj) as [He|[_ ?]]; [|done].
    pose proof (w_open _ _ _ _ Hw _ _ Htj He). lia.
Qed.

Lemma child_inside_parent_witness :
  Parse example1 example1_parser = Return (8, None) example1_final /\
  index (Tokens example1_final) 6 = Some (mkToken Primitive 28 29 0 4) /\
  4 <> -1 /\
  index (Tokens example1_final) 4 = Some (mkToken Array 24 33 3 0) /\
  24 < 28 /\ 29 < 33.
Proof.
  assert (Parse example1 example1_parser = Return (8, None) example1_final)
    as H1 by (vm_compute; reflexivity).
  assert (index (Tokens example1_final) 6 = Some (mkToken Primitive 28 29 0 4))
    as H2 by reflexivity.
  assert (4 <> -1) as H3 by lia.
  assert (index (Tokens example1_final) 4 = Some (mkToken Array 24 33 3 0))
    as H4 by reflexivity.
  split; [exact H1|]. split; [exact H2|]. split; [exact H3|].
  split; [exact H4|].
  exact (child_inside_parent example1 example1_parser example1_final 8 6 4
           _ _ H1 H2 eq_refl H3 H4).
Defined.

(** ** What the buffer holds at a token *)

(** X4: a String token of a successful [Parse] sits between two quotes, the
    byte before [Start] and the byte at [End], and its text holds no quote
    other than as the second byte of a backslash pair. *)
Theorem string_between_quotes (json : list byte) (p0 p : Parser) (n i : Z)
  (t : Token) :
  Parse json p0 = Return (n, None) p ->
  index (Tokens p) i = Some t ->
  Type_ t = String ->
  index json (Start t - 1) = Some quote /\
  index json (End_ t) = Some quote /\
  closing_quote (text json t) = None.
Proof.
  intros HP Hi Hty.
  destruct (Parse_token _ _ _ _ _ _ HP Hi) as (v & Hw & _ & _ & _ & Ht).
  pose proof (w_text _ _ _ _ Hw _ _ Ht) as Htx.
  unfold tok_text in Htx. cbn in Htx. by rewrite Hty in Htx.
Qed.

Lemma string_between_quotes_witness :
  Parse example1 example1_parser = Return (8, None) example1_final /\
  index (Tokens example1_final) 1 = Some (mkToken String 2 5 0 0) /\
  Type_ (mkToken String 2 5 0 0) = String /\
  index example1 (2 - 1) = Some quote /\
  index example1 5 = Some quote /\
  closing_quote (text example1 (mkToken String 2 5 0 0)) = None.
Proof.
  assert (Parse example1 example1_parser = Return (8, None) example1_final)
    as H1 by (vm_compute; reflexivity).
  assert (index (Tokens example1_final) 1 = Some (mkToken String 2 5 0 0))
    as H2 by reflexivity.
  split; [exact H1|]. split; [exact H2|]. split; [reflexivity|].
  exact (string_between_quotes example1 example1_parser example1_final 8 1 _
           H1 H2 eq_refl).
Defined.

(** X5: a Primitive token of a successful [Parse] spans a maximal run of
    bytes free of delimiters (blank, comma, closing bracket): none lies in
    its text, and it ends at the end of the buffer or on a delimiter. *)
Theorem primitive_maximal_run (json : list byte) (p0 p : Parser) (n i : Z)
  (t : Token) :
  Parse json p0 = Return (n, None) p ->
  index (Tokens p) i = Some t ->
  Type_ t = Primitive ->
  Forall (fun c => is_delimiter c = false) (text json t) /\
  (End_ t = len json \/
   exists c, index json (End_ t) = Some c /\ is_delimiter c = true).
Proof.
  intros HP Hi Hty.
  destruct (Parse_token _ _ _ _ _ _ HP Hi) as (v & Hw & _ & _ & _ & Ht).
  pose proof (w_text _ _ _ _ Hw _ _ Ht) as Htx.
  unfold tok_text in Htx. cbn in Htx. by rewrite Hty in Htx.
Qed.

Lemma primitive_maximal_run_witness :
  Parse example1 example1_parser = Return (8, None) example1_final /\
  index (Tokens example1_final) 5 = Some (mkToken Primitive 25 26 0 4) /\
  Type_ (mkToken Primitive 25 26 0 4) = Primitive /\
  Forall (fun c => is_delimiter c = false)
    (text example1 (mkToken Primitive 25 26 0 4)) /\
  (26 = len example1 \/
   exists c, index example1 26 = Some c /\ is_delimiter c = true).
Proof.
  assert (Parse example1 example1_parser = Return (8, None) example1_final)
    as H1 by (vm_compute; reflexivity).
  assert (index (Tokens example1_final) 5 = Some (mkToken Primitive 25 26 0 4))
    as H2 by reflexivity.
  split; [exact H1|]. split; [exact H2|]. split; [reflexivity|].
  exact (primitive_maximal_run example1 example1_parser example1_final 8 5 _
           H1 H2 eq_refl).
Defined.

(** X6: an Object token of a successful [Parse] starts on '{' and an Array
    token on '[', and either ends just after a closing bracket: on success
    no container is closed by the end of the buffer.  The kind of the
    closing bracket is not compared with the kind of the container. *)
Theorem container_brackets (json : list byte) (p0 p : Parser) (n i : Z)
  (t : Token) :
  Parse json p0 = Return (n, None) p ->
  index (Tokens p) i = Some t ->
  is_container t = true ->
  index json (Start t) =
    Some (match Type_ t with Object => "{" | _ => "[" end)%byte /\
  exists c, index json (End_ t - 1) = Some c /\
            (c = "}"%byte \/ c = "]"%byte).
Proof.
  intros HP Hi Hc.
  destruct (Parse_token _ _ _ _ _ _ HP Hi) as (v & Hw & Hs & _ & _ & Ht).
  pose proof (w_text _ _ _ _ Hw _ _ Ht) as Htx.
  assert (End_ t <> -1) as He.
  { intros He. pose proof (w_open _ _ _ _ Hw _ _ Ht He). lia. }
  unfold tok_text, is_container in *. cbn in Htx.
  assert (forall c, is_closer c = true -> c = "}"%byte \/ c = "]"%byte) as Hcl.
  { intros c H. unfold is_closer in H.
    apply orb_true_iff in H as [H|H]; apply byte_dec_bl in H; auto. }
  destruct (Type_ t); try done;
    destruct Htx as [H1 [?|(c & H2 & H3)]]; try done;
    (split; [done|]); exists c; auto.
Qed.

Lemma container_brackets_witness :
  Parse example1 example1_parser = Return (8, None) example1_final /\
  index (Tokens example1_final) 4 = Some (mkToken Array 24 33 3 0) /\
  is_container (mkToken Array 24 33 3 0) = true /\
  index example1 24 = Some "["%byte /\
  exists c, index example1 (33 - 1) = Some c /\
            (c = "}"%byte \/ c = "]"%byte).
Proof.
  assert (Parse example1 example1_parser = Return (8, None) example1_final)
    as H1 by (vm_compute; reflexivity).
  assert (index (Tokens example1_final) 4 = Some (mkToken Array 24 33 3 0))
    as H2 by reflexivity.
  split; [exact H1|]. split; [exact H2|]. split; [reflexivity|].
  exact (container_brackets example1 example1_parser example1_final 8 4 _
           H1 H2 eq_refl).
Defined.

(** ** Capacity and reuse *)

(** With an array as long as the buffer the allocator is never full: the
    concrete loop then follows the loop on the view exactly. *)
Lemma Parse_loop_roomy fuel json p :
  bounded p -> vinv (view_of p) -> 0 <= pos p <= len json ->
  toknext p <= pos p -> len json <= len (tokens p) ->
  match view_loop fuel json (view_of p) with
  | VDone v' =>
      exists p', Parse_loop fuel json p = Return None p' /\ view_of p' = v'
  | VFailed e => exists p', Parse_loop fuel json p = Return (Some e) p'
  | VNoFuel => True
  end.
Proof.
  revert p. induction fuel as [|fuel IH]; intros p Hb Hv Hq Hn Hcap; simpl;
    change (vpos (view_of p)) with (pos p);
    destruct (Z.ltb_spec (pos p) (len json)) as [Hlt|Hlt]; try done.
  1, 3: by eauto.
  pose proof (Parse_body_view json p Hb (conj (proj1 Hq) Hlt)) as Hm.
  pose proof (view_step_ok json (view_of p) Hv (conj (proj1 Hq) Hlt)) as Hok.
  destruct (view_step json (view_of p)) as [e|v1|v1] eqn:Hstep; cbn in Hm, Hok.
  - destruct Hm as (p' & Hm). rewrite Hm. eauto.
  - destruct Hm as (p' & Hm & Hview & Hnext & Hlen).
    destruct Hok as (Hv1 & Hq1 & Hl1). rewrite Hm. subst v1.
    apply IH; try done.
    + apply bounded_of_view; [|done]. rewrite Hnext, Hlen. apply Hb.
    + cbn in Hq1. lia.
    + cbn in Hq1. lia.
    + lia.
  - destruct Hok as (Hv1 & Hq1 & Hl1).
    destruct (Z.ltb_spec (toknext p) (len (tokens p))) as [Ecap|Ecap]; [|lia].
    destruct Hm as (p' & Hm & Hview & Hnext & Hlen). rewrite Hm. subst v1.
    apply IH; try done.
    + apply bounded_of_view; [|done]. rewrite Hnext, Hlen. destruct Hb. lia.
    + cbn in Hq1. lia.
    + cbn in Hq1. lia.
    + lia.
Qed.

(** X7: a scanner with at least as many slots as the buffer has bytes never
    returns the overflow error, since every token takes at least one byte of
    its own. *)
Theorem no_overflow_with_room (json : list byte) (p0 p : Parser) (n : Z)
  (err : option error) :
  len json <= len (tokens p0) ->
  Parse json p0 = Return (n, err) p ->
  err <> Some Overflow.
Proof.
  intros Hcap HP. rewrite Parse_unfold in HP.
  set (p1 := mkParser 0 0 (-1) (tokens p0)) in *.
  assert (bounded p1) as Hb by (split; cbn; [unfold len; lia | by left]).
  pose proof (Parse_loop_roomy (length json) json p1 Hb vinv_init
                ltac:(cbn; unfold len; lia) ltac:(cbn; lia) Hcap) as H.
  change (view_of p1) with view_init in H.
  destruct (view_loop (length json) json view_init) as [e|v|] eqn:Hrun.
  - destruct H as (p' & H). rewrite H in HP. injection HP as _ <- _.
    apply view_loop_err in Hrun as ->. discriminate.
  - destruct H as (p' & H & _). rewrite H in HP. cbv zeta in HP.
    destruct (toksuper p' =? -1); injection HP as _ <- _; discriminate.
  - by apply view_loop_fuel in Hrun;
      [| apply vinv_init | cbn; unfold len; lia | cbn; unfold len; lia].
Qed.

Lemma no_overflow_with_room_witness :
  len example3 <= len (tokens (mkParser 0 0 0 (replicate 6 zeroToken))) /\
  Parse example3 (mkParser 0 0 0 (replicate 6 zeroToken)) =
    Return (0, Some UnclosedContainer)
      (mkParser 6 3 0
         [mkToken Object 0 6 2 (-1); mkToken String 2 3 0 0;
          mkToken Primitive 5 6 0 0; zeroToken; zeroToken; zeroToken]) /\
  Some UnclosedContainer <> Some Overflow.
Proof.
  assert (len example3 <= len (tokens (mkParser 0 0 0 (replicate 6 zeroToken))))
    as H1 by (vm_compute; discriminate).
  assert (Parse example3 (mkParser 0 0 0 (replicate 6 zeroToken)) =
            Return (0, Some UnclosedContainer)
              (mkParser 6 3 0
                 [mkToken Object 0 6 2 (-1); mkToken String 2 3 0 0;
                  mkToken Primitive 5 6 0 0; zeroToken; zeroToken; zeroToken]))
    as H2 by (vm_compute; reflexivity).
  split; [exact H1|]. split; [exact H2|].
  exact (no_overflow_with_room example3 _ _ 0 _ H1 H2).
Defined.

(** X8: a successful [Parse] reports at most as many tokens as the buffer
    has bytes. *)
Theorem token_count_bound (json : list byte) (p0 p : Parser) (n : Z) :
  Parse json p0 = Return (n, None) p -> 0 <= n <= len json.
Proof.
  intros HP.
  apply Parse_success_tokens in HP as (v & _ & Hw & _ & Hq & _ & ->).
  pose proof (w_count _ _ _ _ Hw) as H. rewrite len_fmap, Hq in H.
  split; [apply len_nonneg | done].
Qed.

Lemma token_count_bound_witness :
  Parse example1 example1_parser = Return (8, None) example1_final /\
  0 <= 8 <= len example1.
Proof.
  assert (Parse example1 example1_parser = Return (8, None) example1_final)
    as H1 by (vm_compute; reflexivity).
  split; [exact H1|].
  exact (token_count_bound example1 example1_parser example1_final 8 H1).
Defined.

(** X9: [Parse] starts from scratch on every call.  When it succeeds on one
    receiver, it succeeds with the same count and the same tokens on any
    other receiver with room for them, whatever that array held before and
    however much larger it is. *)
Theorem Parse_reuse (json : list byte) (p0 p p0' : Parser) (n : Z) :
  Parse json p0 = Return (n, None) p ->
  n <= len (tokens p0') ->
  exists p', Parse json p0' = Return (n, None) p' /\ Tokens p' = Tokens p.
Proof.
  intros HP Hcap.
  apply Parse_success in HP as (v & Hrun & _ & Hs & -> & _ & Htoks & _).
  pose proof (Parse_of_view json p0' v Hrun) as H.
  destruct (Z.leb_spec (len (vtoks v)) (len (tokens p0'))); [|lia].
  destruct H as (p' & HP' & Htoks' & _). exists p'.
  unfold Parse_result in HP'. destruct (Z.eqb_spec (vsuper v) (-1)); [|done].
  split; [done | congruence].
Qed.

Lemma Parse_reuse_witness :
  Parse example1 example1_parser = Return (8, None) example1_final /\
  8 <= len (tokens example1_final) /\
  exists p', Parse example1 example1_final = Return (8, None) p' /\
             Tokens p' = Tokens example1_final.
Proof.
  assert (Parse example1 example1_parser = Return (8, None) example1_final)
    as H1 by (vm_compute; reflexivity).
  assert (8 <= len (tokens example1_final)) as H2 by (vm_compute; discriminate).
  split; [exact H1|]. split; [exact H2|].
  exact (Parse_reuse example1 example1_parser example1_final example1_final 8
           H1 H2).
Defined.

(** ** Outcomes of [Parse] *)

(** X10: [Parse] never panics, whatever the buffer and the receiver: no
    index it computes leaves the token array or the buffer, and its loops
    end.  It returns a count and no error, or the count 0 and one of three
    errors: overflow, unclosed string, unclosed container. *)
Theorem Parse_outcomes (json : list byte) (p0 : Parser) :
  exists n err p,
    Parse json p0 = Return (n, err) p /\
    ((err = None /\ 0 <= n) \/
     (n = 0 /\ (err = Some Overflow \/ err = Some UnclosedString \/
                err = Some UnclosedContainer))).
Proof.
  pose proof (Parse_view json p0) as H. unfold Parse_matches in H.
  destruct (view_run json) as [e|v|] eqn:Hrun; [| |done].
  - destruct H as (p & e' & H & He). exists 0, (Some e'), p.
    split; [done|]. right. split; [done|].
    apply view_loop_err in Hrun as ->. destruct He as [->| ->]; auto.
  - destruct (len (vtoks v) <=? len (tokens p0)).
    + destruct H as (p & H & _). unfold Parse_result in H.
      destruct (vsuper v =? -1); eexists _, _, p; (split; [exact H|]).
      * left. split; [done | apply len_nonneg].
      * right. auto.
    + destruct H as (p & H). exists 0, (Some Overflow), p. auto.
Qed.

(** ** The chunks of [ParseParallel] *)

Lemma concat_slices (cs : Z) (json : list byte) (k : nat) :
  0 <= cs ->
  concat ((fun i => slice json (i * cs) (i * cs + cs)) <$> seqZ 0 (Z.of_nat k))
  = take (k * Z.to_nat cs) json.
Proof.
  intros Hcs. induction k as [|k IH]; [done|].
  rewrite seqZ_S, fmap_app, concat_app, IH. cbn [fmap list_fmap concat].
  rewrite app_nil_r. unfold slice.
  replace ((0 + Z.of_nat k) * cs + cs - (0 + Z.of_nat k) * cs) with cs by lia.
  replace (Z.to_nat ((0 + Z.of_nat k) * cs)) with (k * Z.to_nat cs)%nat
    by (rewrite Z2Nat.inj_mul by lia; lia).
  rewrite take_take_drop. f_equal. lia.
Qed.

Lemma chunks_cover (numWorkers chunkSize : Z) (json : list byte) :
  1 <= numWorkers -> 0 <= chunkSize ->
  numWorkers * chunkSize <= len json ->
  concat (chunks numWorkers chunkSize json) = json /\
  len (chunks numWorkers chunkSize json) = numWorkers.
Proof.
  intros Hnw Hcs Hle. split.
  - unfold chunks.
    set (m := Z.to_nat (numWorkers - 1)).
    assert (seqZ 0 numWorkers = seqZ 0 (Z.of_nat m) ++ [0 + Z.of_nat m])
      as Hseq.
    { rewrite <- seqZ_S. f_equal. lia. }
    rewrite Hseq, fmap_app, concat_app. cbn [fmap list_fmap concat].
    rewrite app_nil_r.
    rewrite (list_fmap_ext _ (fun i => slice json (i * chunkSize)
                                         (i * chunkSize + chunkSize))).
    + rewrite concat_slices by done.
      destruct (Z.eqb_spec (0 + Z.of_nat m) (numWorkers - 1)); [|lia].
      unfold slice.
      replace (Z.to_nat ((0 + Z.of_nat m) * chunkSize))
        with (m * Z.to_nat chunkSize)%nat
        by (rewrite Z2Nat.inj_mul by lia; lia).
      rewrite (take_ge (drop _ _)).
      * apply take_drop.
      * rewrite length_drop. unfold len in *. nia.
    + intros i x Hx. apply lookup_seqZ in Hx as [-> Hi].
      destruct (Z.eqb_spec (0 + Z.of_nat i) (numWorkers - 1)); [lia | done].
  - unfold chunks, len. rewrite length_fmap, length_seqZ. lia.
Qed.

(** X11: the byte ranges [ParseParallel] hands to its workers are at most
    four, follow one another, and together are the whole buffer: no byte is
    dropped and none is scanned twice. *)
Theorem ParseParallel_chunks_partition (numCPU : positive)
  (json : list byte) :
  let numWorkers := if Z.pos numCPU >? 4 then 4 else Z.pos numCPU in
  let chunkSize := Z.quot (len json) numWorkers in
  let '(chunkSize, numWorkers) :=
    if chunkSize =? 0 then (len json, 1) else (chunkSize, numWorkers) in
  concat (chunks numWorkers chunkSize json) = json /\
  1 <= len (chunks numWorkers chunkSize json) <= 4.
Proof.
  cbv zeta.
  set (nw := if Z.pos numCPU >? 4 then 4 else Z.pos numCPU).
  assert (1 <= nw <= 4) as Hnw.
  { subst nw. destruct (Z.gtb_spec (Z.pos numCPU) 4); lia. }
  pose proof (len_nonneg json) as Hlen.
  destruct (Z.eqb_spec (Z.quot (len json) nw) 0) as [E|E].
  - destruct (chunks_cover 1 (len json) json) as [H1 H2]; try lia.
    split; [done | lia].
  - rewrite Z.quot_div_nonneg in * by lia.
    pose proof (Z.mul_div_le (len json) nw ltac:(lia)).
    pose proof (Z.div_pos (len json) nw ltac:(lia) ltac:(lia)).
    destruct (chunks_cover nw (len json / nw) json) as [H1 H2]; try lia.
    split; [done | lia].
Qed.

(** ** The drivers never panic on a valid capacity *)





(** X13: on a machine with one CPU [ParseParallel] is a direct [Parse] of
    the whole buffer at the full capacity, whatever the size of the
    buffer. *)
Theorem ParseParallel_one_cpu (json : list byte) (numTokens : Z) :
  ParseParallel 1 json numTokens = [direct_Parse json numTokens].
Proof.
  assert ((match NewParser numTokens with
           | None => Panicked
           | Some p =>
               match Parse json p with
               | Return (_, Some err) _ => Returned [] (Some err)
               | Return (_, None) p' => Returned (Tokens p') None
               | Panic => Panicked
               | OutOfFuel => Diverged
               end
           end) = direct_Parse json numTokens) as Hw.
  { unfold direct_Parse. destruct (NewParser numTokens) as [p|]; [|done].
    destruct (Parse json p) as [[n [e|]] p'| |] eqn:HP; try done.
    apply Parse_count in HP as ->. done. }
  unfold ParseParallel. destruct (len json <? 512).
  - rewrite <- Hw. destruct (NewParser numTokens) as [p|]; [|done].
    by destruct (Parse json p) as [[n [e|]] p'| |].
  - change (Z.pos 1 >? 4) with false. cbv iota.
    rewrite Z.quot_1_r.
    assert ((if len json =? 0 then (len json, 1) else (len json, 1))
            = (len json, 1)) as -> by (by destruct (len json =? 0)).
    unfold chunks. change (seqZ 0 1) with [0]. cbn [fmap list_fmap].
    change (0 =? 1 - 1) with true. cbv iota. unfold slice.
    rewrite Z.mul_0_l, Z.sub_0_r. change (Z.to_nat 0) with O.
    rewrite drop_0, take_ge by (unfold len; lia).
    unfold worker at 1. rewrite Hw. unfold direct_Parse.
    destruct (NewParser numTokens) as [p|]; [|done].
    destruct (Parse_total json p) as ([n err] & p' & ->).
    destruct err; [done|]. cbn. by rewrite app_nil_r.
Qed.



(** ** The primitive sub-scanner and the allocator on their own *)

(** X15: [parsePrimitive] measures the run of bytes up to the next
    delimiter or the end of the buffer.  On an empty run it returns the
    empty-primitive error and leaves the receiver as it was; otherwise it
    moves the position past the run and hands the Primitive token spanning
    it to the allocator, under the current cursor. *)
Theorem parsePrimitive_spec (json : list byte) (p : Parser) :
  0 <= pos p <= len json ->
  let k := Z.of_nat (primitive_run (rest json (pos p))) in
  parsePrimitive json p =
    if k =? 0 then Return (Some EmptyPrimitive) p
    else allocToken (mkToken Primitive (pos p) (pos p + k) 0 (toksuper p))
           (set_pos (pos p + k) p).
Proof.
  intros Hq k. unfold parsePrimitive, bind, get, ret.
  rewrite parsePrimitive_loop_spec; [|done|unfold len; lia].
  fold k. cbn [pos set_pos End_ Start toksuper].
  destruct (Z.eqb_spec k 0) as [E|E].
  - destruct (Z.eqb_spec (pos p + k) (pos p)); [|lia].
    rewrite E, Z.add_0_r. by rewrite set_pos_id.
  - destruct (Z.eqb_spec (pos p + k) (pos p)); [lia|].
    by destruct (allocToken _ _) as [[e|] p'| |].
Qed.

Lemma parsePrimitive_spec_witness :
  0 <= pos (mkParser 5 2 0 (replicate 3 zeroToken)) <= len example3 /\
  parsePrimitive example3 (mkParser 5 2 0 (replicate 3 zeroToken)) =
    Return None
      (mkParser 6 3 0
         [incr_Size zeroToken; zeroToken; mkToken Primitive 5 6 0 0]).
Proof.
  assert (0 <= pos (mkParser 5 2 0 (replicate 3 zeroToken)) <= len example3)
    as H by (vm_compute; split; discriminate).
  split; [exact H|].
  rewrite (parsePrimitive_spec example3 _ H). vm_compute. reflexivity.
Defined.



(** ** Errors of the earlier revision *)

Lemma legacy_parseString_loop_err fuel json tok p e p' :
  Legacy.parseString_loop fuel json tok p = Return (Some e) p' ->
  e = UnclosedString.
Proof.
  revert p. induction fuel as [|fuel IH]; intros p; simpl;
    destruct (pos p <? len json); try done; try (by intros [= <- _]).
  unfold bind at 1, byte_at. destruct (index json (pos p)) as [c|]; [|done].
  destruct (c == quote).
  { unfold bind, modify, ret.
    by destruct (Legacy.allocToken _ _) as [[] q| |]. }
  destruct ((c == backslash) && (pos p + 1 <? len json));
    unfold bind, modify; apply IH.
Qed.

Lemma legacy_Parse_body_err json p e p' :
  Legacy.Parse_body json p = Return (Some e) p' -> e = UnclosedString.
Proof.
  unfold Legacy.Parse_body, bind at 1, byte_at.
  destruct (index json (pos p)) as [c|]; [|done].
  unfold Legacy.Parse_switch.
  destruct ((c == "{") || (c == "[")).
  { unfold bind, get, modify, ret.
    by destruct (Legacy.allocToken _ _) as [[] q| |]. }
  destruct ((c == "}") || (c == "]")).
  { unfold bind, get, modify, ret, store, load.
    destruct (toksuper p =? -1); [done|].
    destruct (index (tokens p) (toksuper p)); [|done]. cbn.
    by destruct (index _ (toksuper p)). }
  destruct (c == quote).
  { unfold Legacy.parseString, bind, modify, get.
    apply legacy_parseString_loop_err. }
  destruct ((c == x09) || (c == x0d) || (c == x0a) || (c == " ")); [done|].
  destruct (c == ":"); [done|].
  destruct (c == ",").
  { unfold bind, get, modify, ret, load.
    destruct (toksuper p =? -1); [done|].
    destruct (index (tokens p) (toksuper p)) as [t|]; [|done].
    by destruct (Type_ t). }
  unfold Legacy.parsePrimitive, bind, get, ret.
  destruct (parsePrimitive_loop _ _ _) as [[] q| |]; try done.
  by destruct (Legacy.allocToken _ _) as [[] q'| |].
Qed.

Lemma legacy_Parse_loop_err fuel json p e p' :
  Legacy.Parse_loop fuel json p = Return (Some e) p' -> e = UnclosedString.
Proof.
  revert p. induction fuel as [|fuel IH]; intros p; simpl;
    destruct (pos p <? len json); try done.
  destruct (Legacy.Parse_body json p) as [[e0|] q| |] eqn:Hb; try done.
  - intros [= <- _]. by eapply legacy_Parse_body_err.
  - apply IH.
Qed.

(** X17: in the earlier revision the only error [Parse] returns is the
    unclosed string, with the count 0; there is no overflow, empty-primitive
    or unclosed-container error. *)
Theorem legacy_Parse_errors (json : list byte) (p0 p : Parser) (n : Z)
  (e : error) :
  Legacy.Parse json p0 = Return (n, Some e) p ->
  n = 0 /\ e = UnclosedString.
Proof.
  unfold Legacy.Parse, bind, modify, get, ret.
  destruct (Legacy.Parse_loop _ _ _) as [[e0|] q| |] eqn:Hl; try done.
  intros [= <- <- _]. split; [done|]. by eapply legacy_Parse_loop_err.
Qed.

Lemma legacy_Parse_errors_witness :
  Legacy.Parse (quote :: str "abc") (mkParser 0 0 0 [zeroToken]) =
    Return (0, Some UnclosedString) (mkParser 4 0 (-1) [zeroToken]) /\
  0 = 0 /\ UnclosedString = UnclosedString.
Proof.
  assert (Legacy.Parse (quote :: str "abc") (mkParser 0 0 0 [zeroToken]) =
            Return (0, Some UnclosedString) (mkParser 4 0 (-1) [zeroToken]))
    as H by (vm_compute; reflexivity).
  split; [exact H|].
  exact (legacy_Parse_errors _ _ _ _ _ H).
Defined.
